(** * find_version_empty: a shallow embedding of scripts/find_version_empty.py

    The script loads [package-lock.json], runs a shallow pre-pass over the
    top-level [packages] member, walks the whole document recursively and
    prints every path whose object has [version == ''], then the count.

    Python values produced by [json.loads] are modelled by the inductive
    type [json]; the module globals [data] and [EMPTY] by the record
    [globals]; uncaught exceptions by the error monad [result].

    A [str] is modelled by its bytes in UTF-8, a lone surrogate
    (U+D800..U+DFFF, which [json.loads] returns for an escape such as
    ["\ud800"]) being written in its three-byte form [ED A0..BF 80..BF],
    as the [surrogatepass] handler writes it.  Concatenation, equality,
    the substring test and the search for a line feed on the bytes are
    those on the code points.  Standard output is the string of the bytes
    written to it.

    The run is modelled twice.  [script] and [main] are the run on an
    interpreter whose standard output encodes every text and whose call
    stack is deep enough for the document: each [print] appends its text
    and a line feed.  [script_run] and [run] are the run with both limits
    explicit: standard output encodes UTF-8 strictly, so that [print]
    raises [UnicodeEncodeError] on a text with a lone surrogate, after the
    earlier lines were written, and the recursion limit of the interpreter
    is a parameter.  [run_as_main] relates the two.

    [walk_stack] counts the nested calls of [walk] itself; what else an
    interpreter charges against its recursion limit is not counted. *)

From Stdlib Require Import String Ascii List Bool Arith ZArith Lia.
From Stdlib Require Import Decimal DecimalString.
From Stdlib Require Import Floats.SpecFloat.
Import ListNotations.

#[local] Open Scope list_scope.
#[local] Open Scope string_scope.

(** ** Values returned by [json.loads] *)

(** [dict] keeps insertion order, so an object is an association list; a
    Python [dict] never holds a key twice, which is the invariant
    [unique_keys] below. *)
#[warnings="-register-all"]
Inductive json : Type :=
| JNull                                   (* None *)
| JBool (b : bool)                        (* True / False *)
| JInt (z : Z)                            (* int *)
| JFloat (f : spec_float)                 (* float, NaN and Infinity included *)
| JStr (s : string)                       (* str *)
| JArr (l : list json)                    (* list *)
| JObj (d : list (string * json)).        (* dict *)

(** Induction over documents, with the two container cases carrying the
    property for every child. *)
Section json_induction.
Variable P : json -> Prop.
Hypothesis HNull : P JNull.
Hypothesis HBool : forall b, P (JBool b).
Hypothesis HInt : forall z, P (JInt z).
Hypothesis HFloat : forall f, P (JFloat f).
Hypothesis HStr : forall s, P (JStr s).
Hypothesis HArr : forall l, Forall P l -> P (JArr l).
Hypothesis HObj : forall d, Forall (fun kv => P (snd kv)) d -> P (JObj d).

Fixpoint json_ind' (v : json) : P v :=
  match v with
  | JNull => HNull
  | JBool b => HBool b
  | JInt z => HInt z
  | JFloat f => HFloat f
  | JStr s => HStr s
  | JArr l =>
      HArr l ((fix elems (l : list json) : Forall P l :=
                 match l with
                 | [] => Forall_nil _
                 | v :: r => Forall_cons v (json_ind' v) (elems r)
                 end) l)
  | JObj d =>
      HObj d ((fix members (d : list (string * json))
                 : Forall (fun kv => P (snd kv)) d :=
                 match d with
                 | [] => Forall_nil _
                 | kv :: r =>
                     Forall_cons kv (json_ind' (snd kv)) (members r)
                 end) d)
  end.
End json_induction.

(** ** Uncaught exceptions *)

Inductive exn : Type :=
| OSError            (* read_text: file missing or unreadable *)
| UnicodeDecodeError (* read_text: the bytes of the file are no text *)
| JSONDecodeError    (* json.loads: not valid JSON *)
| ValueError         (* json.loads: an integer literal past the digit limit *)
| RecursionError     (* json.loads or walk: nesting past the recursion limit *)
| TypeError          (* 'packages' in 5, [..]['packages'], 'ab'['packages'] *)
| KeyError           (* d['packages'] on a dict without that key *)
| AttributeError     (* .items() or .get() on a value that is no dict *)
| UnicodeEncodeError. (* print: a text standard output cannot encode *)

Inductive result (A : Type) : Type :=
| Ok (a : A)
| Raise (e : exn).
Arguments Ok {A} a.
Arguments Raise {A} e.

Definition bind {A B : Type} (m : result A) (k : A -> result B) : result B :=
  match m with
  | Ok a => k a
  | Raise e => Raise e
  end.

Notation "x <- m ;; k" := (bind m (fun x => k))
  (at level 61, m at next level, right associativity).

(** ** Module globals *)

Record globals : Type := Globals {
  data : json;              (* data = json.loads(...) *)
  EMPTY : list string       (* EMPTY = [] *)
}.

(** [EMPTY.append(p)] *)
Definition append (p : string) (g : globals) : globals :=
  {| data := data g; EMPTY := EMPTY g ++ [p] |}.

(** ** Python primitives used by the script *)

(** [str(n)] for a non-negative [int]. *)
Definition str_of_nat (n : nat) : string :=
  NilEmpty.string_of_uint (Nat.to_uint n).

(** [v == s] where [s] is a [str]: only an equal [str] compares equal. *)
Definition str_eq (v : json) (s : string) : bool :=
  match v with
  | JStr t => String.eqb t s
  | _ => false
  end.

(** Lookup of a key in a [dict]. *)
Fixpoint dict_lookup (d : list (string * json)) (key : string) : option json :=
  match d with
  | [] => None
  | (k, v) :: r => if String.eqb k key then Some v else dict_lookup r key
  end.

(** [d.get(key, default)] on a [dict]. *)
Definition dict_get (d : list (string * json)) (key : string) (default : json)
  : json :=
  match dict_lookup d key with
  | Some v => v
  | None => default
  end.

(** [needle in s] for two [str]: substring test. *)
Fixpoint str_contains (needle s : string) : bool :=
  String.prefix needle s
  || match s with
     | EmptyString => false
     | String _ s' => str_contains needle s'
     end.

(** [needle in container] with a [str] needle. *)
Definition contains (needle : string) (container : json) : result bool :=
  match container with
  | JObj d => Ok (existsb (fun kv => String.eqb (fst kv) needle) d)
  | JArr l => Ok (existsb (fun v => str_eq v needle) l)
  | JStr s => Ok (str_contains needle s)
  | JNull | JBool _ | JInt _ | JFloat _ => Raise TypeError
  end.

(** [container[key]] with a [str] key. *)
Definition getitem (container : json) (key : string) : result json :=
  match container with
  | JObj d =>
      match dict_lookup d key with
      | Some v => Ok v
      | None => Raise KeyError
      end
  | _ => Raise TypeError
  end.

(** [v.items()] *)
Definition items (v : json) : result (list (string * json)) :=
  match v with
  | JObj d => Ok d
  | _ => Raise AttributeError
  end.

(** [v.get(key, default)] *)
Definition get (v : json) (key : string) (default : json) : result json :=
  match v with
  | JObj d => Ok (dict_get d key default)
  | _ => Raise AttributeError
  end.

(** [print(s)] on a standard output that encodes [s]: the text and a line
    feed are appended to it. *)
Definition LF : string := String (ascii_of_nat 10) EmptyString.

Definition print (s : string) (out : string) : string := out ++ s ++ LF.

(** ** The script *)

(** Lines 7-10: the pre-pass over [data['packages']].
<<
if 'packages' in data:
    for key, pkg in data['packages'].items():
        if pkg.get('version', None) == '':
            EMPTY.append(f"packages[{key}]")
>> *)
Fixpoint prepass_loop (its : list (string * json)) (g : globals)
  : result globals :=
  match its with
  | [] => Ok g
  | (key, pkg) :: r =>
      v <- get pkg "version" JNull ;;
      prepass_loop r
        (if str_eq v "" then append ("packages[" ++ key ++ "]") g else g)
  end.

Definition prepass (g : globals) : result globals :=
  b <- contains "packages" (data g) ;;
  if b : bool then
    pk <- getitem (data g) "packages" ;;
    its <- items pk ;;
    prepass_loop its g
  else Ok g.

(** Lines 12-20: the recursive walk.
<<
def walk(obj, path='root'):
    if isinstance(obj, dict):
        if obj.get('version', None) == '':
            EMPTY.append(path)
        for k,v in obj.items():
            walk(v, f"{path}.{k}")
    elif isinstance(obj, list):
        for idx,v in enumerate(obj):
            walk(v, f"{path}[{idx}]")
>> *)
Fixpoint walk (obj : json) (path : string) (g : globals) {struct obj}
  : globals :=
  match obj with
  | JObj d =>
      (fix members (its : list (string * json)) (g : globals) : globals :=
         match its with
         | [] => g
         | (k, v) :: r => members r (walk v (path ++ "." ++ k) g)
         end) d
        (if str_eq (dict_get d "version" JNull) "" then append path g else g)
  | JArr l =>
      (fix elems (vs : list json) (idx : nat) (g : globals) : globals :=
         match vs with
         | [] => g
         | v :: r =>
             elems r (S idx) (walk v (path ++ "[" ++ str_of_nat idx ++ "]") g)
         end) l 0 g
  | JNull | JBool _ | JInt _ | JFloat _ | JStr _ => g
  end.

(** Lines 23-25: the reporter.
<<
for item in EMPTY:
    print(item)
print('total', len(EMPTY))
>> *)
Definition reporter (g : globals) (out : string) : string :=
  print ("total" ++ " " ++ str_of_nat (length (EMPTY g)))
    (fold_left (fun o item => print item o) (EMPTY g) out).

(** Lines 5-25, from the parsed document on, when standard output encodes
    every text and the call stack is deep enough: what is printed, or the
    exception of the pre-pass that ends the run.  Nothing is printed
    before the reporter, so a run that the pre-pass ends leaves standard
    output empty.  [script_run] below is the run without the two
    assumptions. *)
Definition script (doc : json) : result string :=
  g <- prepass {| data := doc; EMPTY := [] |} ;;
  Ok (reporter (walk (data g) "root" g) "").

(** Lines 3-4: the loader.  [read_text] and [json.loads] are library
    calls; their outcomes are the input of the model. *)
Inductive loaded : Type :=
| Unreadable            (* read_text raises OSError: no file, no permission *)
| Undecodable           (* read_text raises UnicodeDecodeError *)
| Malformed             (* json.loads raises JSONDecodeError: no JSON *)
| Refused               (* json.loads raises ValueError on valid JSON:
                           an integer literal past the digit limit *)
| TooDeep               (* json.loads raises RecursionError on valid JSON *)
| Parsed (doc : json).  (* json.loads returns *)

(** The exception of a loader that fails. *)
Definition loader_error (input : loaded) : option exn :=
  match input with
  | Unreadable => Some OSError
  | Undecodable => Some UnicodeDecodeError
  | Malformed => Some JSONDecodeError
  | Refused => Some ValueError
  | TooDeep => Some RecursionError
  | Parsed _ => None
  end.


Definition main (input : loaded) : result string :=
  match input with
  | Unreadable => Raise OSError
  | Undecodable => Raise UnicodeDecodeError
  | Malformed => Raise JSONDecodeError
  | Refused => Raise ValueError
  | TooDeep => Raise RecursionError
  | Parsed doc => script doc
  end.

(** Exit status of the interpreter: 0 after a normal end, 1 after an
    uncaught exception. *)
Definition exit_status {A : Type} (r : result A) : nat :=
  match r with
  | Ok _ => 0
  | Raise _ => 1
  end.

(** ** The two loops of [walk], named *)

(** [for k,v in obj.items(): walk(v, f"{path}.{k}")] *)
Definition walk_members (path : string) (its : list (string * json))
  (g : globals) : globals :=
  fold_left (fun g kv => walk (snd kv) (path ++ "." ++ fst kv) g) its g.

(** [for idx,v in enumerate(obj): walk(v, f"{path}[{idx}]")], entered with
    the counter at [idx]. *)
Fixpoint walk_elems (path : string) (vs : list json) (idx : nat)
  (g : globals) : globals :=
  match vs with
  | [] => g
  | v :: r =>
      walk_elems path r (S idx)
        (walk v (path ++ "[" ++ str_of_nat idx ++ "]") g)
  end.

(** ** The walk with its own nesting explicit

    [walk_stack n] is [walk] allowed [n] nested calls of itself: a call of
    [walk] that would be the [n+1]-th in a row gives [None].  It recurses
    on the room left, not on the document.  Only calls of [walk] are
    counted, not what an interpreter may charge besides. *)
Fixpoint walk_stack (room : nat) (obj : json) (path : string) (g : globals)
  {struct room} : option globals :=
  match room with
  | 0 => None
  | S room' =>
      match obj with
      | JObj d =>
          fold_left
            (fun acc kv =>
               match acc with
               | Some g => walk_stack room' (snd kv) (path ++ "." ++ fst kv) g
               | None => None
               end)
            d
            (Some (if str_eq (dict_get d "version" JNull) ""
                   then append path g else g))
      | JArr l =>
          fst (fold_left
                 (fun acc v =>
                    (match fst acc with
                     | Some g =>
                         walk_stack room' v
                           (path ++ "[" ++ str_of_nat (snd acc) ++ "]") g
                     | None => None
                     end, S (snd acc)))
                 l (Some g, 0))
      | JNull | JBool _ | JInt _ | JFloat _ | JStr _ => Some g
      end
  end.

(** The children of a node, and the nesting depth of a document. *)
Definition children (v : json) : list json :=
  match v with
  | JObj d => map snd d
  | JArr l => l
  | _ => []
  end.

Fixpoint depth (v : json) : nat :=
  match v with
  | JObj d =>
      S ((fix members (its : list (string * json)) : nat :=
            match its with
            | [] => 0
            | kv :: r => Nat.max (depth (snd kv)) (members r)
            end) d)
  | JArr l =>
      S ((fix elems (vs : list json) : nat :=
            match vs with
            | [] => 0
            | v :: r => Nat.max (depth v) (elems r)
            end) l)
  | _ => 1
  end.

Definition max_depth (vs : list json) : nat :=
  fold_right (fun v m => Nat.max (depth v) m) 0 vs.

(** ** The data-model invariant: no [dict] holds a key twice *)

Fixpoint distinct (ks : list string) : bool :=
  match ks with
  | [] => true
  | k :: r => negb (existsb (String.eqb k) r) && distinct r
  end.

Fixpoint unique_keys (v : json) : bool :=
  match v with
  | JObj d =>
      distinct (map fst d)
      && (fix members (its : list (string * json)) : bool :=
            match its with
            | [] => true
            | kv :: r => unique_keys (snd kv) && members r
            end) d
  | JArr l =>
      (fix elems (vs : list json) : bool :=
         match vs with
         | [] => true
         | v :: r => unique_keys v && elems r
         end) l
  | _ => true
  end.

(** ** The specification of the walk, from the words of the spec

    A location is the route from the root to a node: the keys and indices
    passed on the way.  [nodes] lists every node of a document with its
    location in pre-order, members in key order and elements in index
    order from 0.  A node is flagged when it is an object with a member
    named [version] whose value is the empty string. *)
Inductive step : Type :=
| Key (k : string)
| Index (i : nat).

Definition location : Type := list step.
Bind Scope list_scope with location.

Definition extend (path : string) (s : step) : string :=
  match s with
  | Key k => path ++ "." ++ k
  | Index i => path ++ "[" ++ str_of_nat i ++ "]"
  end.

Definition render (root : string) (loc : location) : string :=
  fold_left extend loc root.

Fixpoint nodes (v : json) (loc : location) {struct v}
  : list (location * json) :=
  (loc, v) ::
  match v with
  | JObj d =>
      (fix members (its : list (string * json)) : list (location * json) :=
         match its with
         | [] => []
         | kv :: r => (nodes (snd kv) (loc ++ [Key (fst kv)]) ++ members r)%list
         end) d
  | JArr l =>
      (fix elems (vs : list json) (idx : nat) : list (location * json) :=
         match vs with
         | [] => []
         | c :: r => (nodes c (loc ++ [Index idx]) ++ elems r (S idx))%list
         end) l 0
  | _ => []
  end.

Definition nodes_members (loc : location) (its : list (string * json))
  : list (location * json) :=
  flat_map (fun kv => nodes (snd kv) (loc ++ [Key (fst kv)])%list) its.

Fixpoint nodes_elems (loc : location) (vs : list json) (idx : nat)
  : list (location * json) :=
  match vs with
  | [] => []
  | c :: r => (nodes c (loc ++ [Index idx]) ++ nodes_elems loc r (S idx))%list
  end.

(** "an object with a member named [version] whose value is exactly the
    empty string" *)
Definition is_empty_version (kv : string * json) : bool :=
  String.eqb (fst kv) "version" && str_eq (snd kv) "".

Definition has_empty_version (v : json) : bool :=
  match v with
  | JObj d => existsb is_empty_version d
  | _ => false
  end.

Definition flagged_locations (doc : json) : list location :=
  map fst (filter (fun n => has_empty_version (snd n)) (nodes doc [])).

(** The records of the pre-pass, from the words of the spec: one
    [packages[<key>]] for each direct member of [packages] that is an
    object with an empty [version]. *)
Definition prepass_records (pk : list (string * json)) : list string :=
  map (fun kv => "packages[" ++ fst kv ++ "]")
    (filter (fun kv => has_empty_version (snd kv)) pk).

(** The documents on which the pre-pass raises nothing. *)
Definition is_object (v : json) : bool :=
  match v with
  | JObj _ => true
  | _ => false
  end.

Definition prepass_accepts (doc : json) : bool :=
  match doc with
  | JObj d =>
      match dict_lookup d "packages" with
      | None => true
      | Some (JObj pk) => forallb (fun kv => is_object (snd kv)) pk
      | Some _ => false
      end
  | JArr l => negb (existsb (fun v => str_eq v "packages") l)
  | JStr s => negb (str_contains "packages" s)
  | JNull | JBool _ | JInt _ | JFloat _ => false
  end.

(** ** Lines of standard output *)

Definition is_LF (c : ascii) : bool := Ascii.eqb c (ascii_of_nat 10).

(** No line feed inside a string. *)
Fixpoint one_line (s : string) : bool :=
  match s with
  | EmptyString => true
  | String c r => negb (is_LF c) && one_line r
  end.

(** The lines of a text, each ended by a line feed (the last one may lack
    it). *)
Fixpoint splitlines (s : string) : list string :=
  match s with
  | EmptyString => []
  | String c r =>
      if is_LF c then EmptyString :: splitlines r
      else match splitlines r with
           | [] => [String c EmptyString]
           | l :: ls => String c l :: ls
           end
  end.

(** The document of scenario 3 and the one of the path collision. *)
Definition empty_version : json := JObj [("version", JStr "")].

Definition scenario3 : json :=
  JObj [("packages", JObj [("node_modules/foo", empty_version)])].

Definition collision : json :=
  JObj [("a.b", empty_version); ("a", JObj [("b", empty_version)])].

(** ** What the two passes append, read off the code

    [code_flag] is the test of lines 9 and 14 on a node; [trace] renders
    the locations of the nodes that pass a test; [appended g ps] is [g]
    after [EMPTY.append] of each of [ps]; [prepass_trace] is what lines
    7-10 append when they raise nothing. *)
Definition code_flag (v : json) : bool :=
  match v with
  | JObj d => str_eq (dict_get d "version" JNull) ""
  | _ => false
  end.

Definition trace (test : json -> bool) (root : string)
  (ns : list (location * json)) : list string :=
  map (fun n => render root (fst n)) (filter (fun n => test (snd n)) ns).

Definition appended (g : globals) (ps : list string) : globals :=
  {| data := data g; EMPTY := EMPTY g ++ ps |}.

Definition packages_label (kv : string * json) : string :=
  "packages[" ++ fst kv ++ "]".

Definition prepass_trace (doc : json) : list string :=
  match doc with
  | JObj d =>
      match dict_lookup d "packages" with
      | Some (JObj pk) =>
          map packages_label (filter (fun kv => code_flag (snd kv)) pk)
      | _ => []
      end
  | _ => []
  end.

(** The text of the reporter, from the words of the spec: each entry on a
    line of its own, in order, then [total] and the length. *)
Definition total_line (E : list string) : string :=
  "total " ++ str_of_nat (length E).

Definition report_text (E : list string) : string :=
  fold_right (fun p rest => p ++ LF ++ rest) (total_line E ++ LF) E.

(** A key that holds a line feed, and a document that flags under it. *)
Definition two_line_key : string := "a" ++ LF ++ "b".

Definition two_line_doc : json := JObj [(two_line_key, empty_version)].

(** Lists of objects of lists, with a flagged object at two depths. *)
Definition nested : json :=
  JObj [("a", JArr [JObj [("version", JStr "");
                          ("b", JArr [JArr []; empty_version])];
                    JObj [("version", JStr " ")];
                    JObj [("version", JNull)]])].

(** ** Further notions used to describe the script *)

(** The direct members of the top-level [packages] object, when the root
    is an object that has one. *)
Definition packages_members (doc : json) : list (string * json) :=
  match doc with
  | JObj d =>
      match dict_lookup d "packages" with
      | Some (JObj pk) => pk
      | _ => []
      end
  | _ => []
  end.

(** Following a location from a node: [doc[k]] for a key, [doc[i]] for an
    index; [None] when a step does not apply. *)
Fixpoint resolve (v : json) (loc : location) : option json :=
  match loc with
  | [] => Some v
  | Key k :: r =>
      match v with
      | JObj d =>
          match dict_lookup d k with
          | Some c => resolve c r
          | None => None
          end
      | _ => None
      end
  | Index i :: r =>
      match v with
      | JArr l =>
          match nth_error l i with
          | Some c => resolve c r
          | None => None
          end
      | _ => None
      end
  end.

(** The number of line feeds inside a string. *)
Fixpoint count_LF (s : string) : nat :=
  match s with
  | EmptyString => 0
  | String c r => (if is_LF c then 1 else 0) + count_LF r
  end.

(** ** The run with the limits of the interpreter explicit *)

(** Standard output encodes UTF-8 with the [strict] handler: a text is
    refused when it holds a lone surrogate, whose bytes are [ED] followed
    by a byte in [A0..BF]. *)
Definition second_of_surrogate (r : string) : bool :=
  match r with
  | String d _ => Nat.leb 160 (nat_of_ascii d) && Nat.leb (nat_of_ascii d) 191
  | EmptyString => false
  end.

Fixpoint has_surrogate (s : string) : bool :=
  match s with
  | EmptyString => false
  | String c r =>
      (Nat.eqb (nat_of_ascii c) 237 && second_of_surrogate r)
      || has_surrogate r
  end.

Definition encodable (s : string) : bool := negb (has_surrogate s).

(** What a run leaves behind: the bytes on standard output and the
    uncaught exception, if any. *)
Record outcome : Type := Outcome {
  stdout : string;
  raised : option exn
}.


(** [for item in EMPTY: print(item)]: the write of an item that cannot be
    encoded raises before any of it is written; the earlier lines stay. *)
Fixpoint report_loop (its : list string) (out : string) : outcome :=
  match its with
  | [] => {| stdout := out; raised := None |}
  | item :: r =>
      if encodable item then report_loop r (print item out)
      else {| stdout := out; raised := Some UnicodeEncodeError |}
  end.

(** Lines 23-25 on that standard output. *)
Definition reporter_run (g : globals) (out : string) : outcome :=
  match raised (report_loop (EMPTY g) out) with
  | Some e => report_loop (EMPTY g) out
  | None =>
      let out' := stdout (report_loop (EMPTY g) out) in
      let total := "total" ++ " " ++ str_of_nat (length (EMPTY g)) in
      if encodable total
      then {| stdout := print total out'; raised := None |}
      else {| stdout := out'; raised := Some UnicodeEncodeError |}
  end.

(** Lines 5-25 from the parsed document on.  [stack_holds doc] tells
    whether the recursion limit of the interpreter lets [walk(data)] run to
    its end on [doc]; it depends on the interpreter and is a parameter. *)
Definition script_run (stack_holds : json -> bool) (doc : json) : outcome :=
  match prepass {| data := doc; EMPTY := [] |} with
  | Raise e => {| stdout := ""; raised := Some e |}
  | Ok g =>
      if stack_holds (data g)
      then reporter_run (walk (data g) "root" g) ""
      else {| stdout := ""; raised := Some RecursionError |}
  end.

(** Lines 3-25. *)
Definition run (stack_holds : json -> bool) (input : loaded) : outcome :=
  match input with
  | Parsed doc => script_run stack_holds doc
  | _ => {| stdout := ""; raised := loader_error input |}
  end.

(** An interpreter that charges only the calls of [walk], with room for
    [room] of them. *)
Definition counts_walk_only (room : nat) (doc : json) : bool :=
  Nat.leb (depth doc) room.

(** The collection after both passes, read off the code. *)
Definition collected (doc : json) : list string :=
  (prepass_trace doc ++ trace code_flag "root" (nodes doc []))%list.

(** The entries printed before the first one that cannot be encoded. *)
Fixpoint encodable_prefix (its : list string) : list string :=
  match its with
  | [] => []
  | item :: r => if encodable item then item :: encodable_prefix r else []
  end.

(** The lines of some entries, without a total line. *)
Definition entry_lines (its : list string) : string :=
  fold_right (fun p rest => p ++ LF ++ rest) "" its.



(** A [packages] object with two flagged members and one that is not. *)
Definition two_packages : json :=
  JObj [("packages",
         JObj [("a", empty_version);
               ("b", JObj [("version", JStr "1.0.0")]);
               ("c", empty_version)])].

(** * Properties *)

(** ** The loops of [walk] unfold to their named versions *)

Lemma walk_JObj (d : list (string * json)) (path : string) (g : globals) :
  walk (JObj d) path g
  = walk_members path d
      (if str_eq (dict_get d "version" JNull) "" then append path g else g).
Proof.
  cbn [walk]. unfold walk_members.
  generalize (if str_eq (dict_get d "version" JNull) ""
              then append path g else g) as g0.
  induction d as [|[k v] r IH]; intro g0; [reflexivity|].
  cbn [fold_left fst snd]. apply IH.
Qed.

Lemma walk_JArr (l : list json) (path : string) (g : globals) :
  walk (JArr l) path g = walk_elems path l 0 g.
Proof.
  cbn [walk]. generalize 0 as idx. revert g.
  induction l as [|v r IH]; intros g idx; [reflexivity|].
  cbn [walk_elems]. apply IH.
Qed.

Lemma nodes_JObj (d : list (string * json)) (loc : location) :
  nodes (JObj d) loc = (loc, JObj d) :: nodes_members loc d.
Proof.
  reflexivity.
Qed.

Lemma nodes_JArr (l : list json) (loc : location) :
  nodes (JArr l) loc = (loc, JArr l) :: nodes_elems loc l 0.
Proof.
  cbn [nodes]. f_equal. generalize 0 as idx.
  induction l as [|v r IH]; intro idx; [reflexivity|].
  cbn [nodes_elems]. now rewrite IH.
Qed.

Lemma render_snoc (root : string) (loc : location) (s : step) :
  render root (loc ++ [s]) = extend (render root loc) s.
Proof. unfold render. now rewrite fold_left_app. Qed.

(** ** What the walk appends, with the test of the code *)

Lemma trace_app test root ns ms :
  trace test root (ns ++ ms) = (trace test root ns ++ trace test root ms)%list.
Proof. unfold trace. now rewrite filter_app, map_app. Qed.

Lemma appended_nil g : appended g [] = g.
Proof. destruct g. unfold appended. cbn. now rewrite app_nil_r. Qed.

Lemma appended_app g ps qs :
  appended (appended g ps) qs = appended g (ps ++ qs).
Proof. unfold appended. cbn. now rewrite app_assoc. Qed.

Lemma walk_trace (obj : json) :
  forall (root : string) (loc : location) (g : globals),
    walk obj (render root loc) g
    = appended g (trace code_flag root (nodes obj loc)).
Proof.
  induction obj as [| b | z | f | s | l IH | d IH] using json_ind';
    intros root loc g;
    try (cbn; now rewrite appended_nil).
  - rewrite walk_JArr, nodes_JArr.
    change (trace code_flag root ((loc, JArr l) :: nodes_elems loc l 0))
      with (trace code_flag root (nodes_elems loc l 0)).
    generalize 0 as idx. revert g.
    induction IH as [|v r Hv _ IHr]; intros g idx.
    + cbn. now rewrite appended_nil.
    + cbn [walk_elems nodes_elems].
      change (render root loc ++ "[" ++ str_of_nat idx ++ "]")
        with (extend (render root loc) (Index idx)).
      rewrite <- render_snoc, Hv, IHr, appended_app, trace_app.
      reflexivity.
  - rewrite walk_JObj, nodes_JObj.
    assert (Hhead : forall tl,
               trace code_flag root ((loc, JObj d) :: tl)
               = ((if str_eq (dict_get d "version" JNull) ""
                   then [render root loc] else [])
                  ++ trace code_flag root tl)%list).
    { intro tl. unfold trace. cbn [filter snd code_flag].
      destruct (str_eq (dict_get d "version" JNull) ""); reflexivity. }
    rewrite Hhead, <- appended_app.
    replace (if str_eq (dict_get d "version" JNull) ""
             then append (render root loc) g else g)
      with (appended g (if str_eq (dict_get d "version" JNull) ""
                        then [render root loc] else [])).
    2:{ destruct (str_eq (dict_get d "version" JNull) "");
        [reflexivity | apply appended_nil]. }
    generalize (appended g (if str_eq (dict_get d "version" JNull) ""
                            then [render root loc] else [])) as g0.
    clear Hhead. unfold walk_members, nodes_members.
    induction IH as [|[k v] r Hv _ IHr]; intro g0.
    + cbn. now rewrite appended_nil.
    + cbn [fold_left flat_map fst snd] in *.
      change (render root loc ++ "." ++ k)
        with (extend (render root loc) (Key k)).
      rewrite <- render_snoc, Hv, IHr, appended_app, trace_app.
      reflexivity.
Qed.

(** ** The invariant [unique_keys] and the two readings of the test *)

Lemma unique_keys_JObj (d : list (string * json)) :
  unique_keys (JObj d)
  = distinct (map fst d) && forallb (fun kv => unique_keys (snd kv)) d.
Proof. reflexivity. Qed.

Lemma unique_keys_JArr (l : list json) :
  unique_keys (JArr l) = forallb unique_keys l.
Proof. reflexivity. Qed.

Lemma absent_key_no_member (k : string) (r : list (string * json)) :
  existsb (String.eqb k) (map fst r) = false ->
  forall v, ~ In (k, v) r.
Proof.
  induction r as [|[k' v'] r IH]; cbn; intros H v; [tauto|].
  apply orb_false_iff in H as [Hk Hr].
  intros [E | Hin]; [|exact (IH Hr v Hin)].
  injection E as -> _. now rewrite String.eqb_refl in Hk.
Qed.

Lemma lookup_member (d : list (string * json)) (k : string) (v : json) :
  dict_lookup d k = Some v -> In (k, v) d.
Proof.
  induction d as [|[k' v'] r IH]; cbn; [discriminate|].
  destruct (String.eqb k' k) eqn:E.
  - apply String.eqb_eq in E as ->. intros [= ->]. now left.
  - intro H. right. now apply IH.
Qed.

Lemma member_lookup (d : list (string * json)) (k : string) (v : json) :
  distinct (map fst d) = true -> In (k, v) d -> dict_lookup d k = Some v.
Proof.
  induction d as [|[k' v'] r IH]; cbn; [tauto|].
  intros H Hin. apply andb_true_iff in H as [Hk Hr].
  apply negb_true_iff in Hk.
  destruct Hin as [E | Hin].
  - injection E as -> ->. now rewrite String.eqb_refl.
  - destruct (String.eqb k' k) eqn:E.
    + apply String.eqb_eq in E as ->.
      now destruct (absent_key_no_member _ _ Hk v).
    + now apply IH.
Qed.

Lemma lookup_absent (d : list (string * json)) (k : string) :
  dict_lookup d k = None <-> ~ In k (map fst d).
Proof.
  induction d as [|[k' v'] r IH]; cbn; [tauto|].
  destruct (String.eqb k' k) eqn:E.
  - apply String.eqb_eq in E as ->. split; [discriminate | tauto].
  - apply String.eqb_neq in E. rewrite IH. tauto.
Qed.

Lemma has_empty_version_member (d : list (string * json)) :
  existsb is_empty_version d = true <-> In ("version", JStr "") d.
Proof.
  rewrite existsb_exists. split.
  - intros [[k v] [Hin H]]. unfold is_empty_version in H. cbn in H.
    apply andb_true_iff in H as [Hk Hv].
    apply String.eqb_eq in Hk as ->.
    destruct v; try discriminate.
    cbn in Hv. apply String.eqb_eq in Hv as ->. exact Hin.
  - intro Hin. exists ("version", JStr ""). now split.
Qed.

Lemma code_flag_lookup (d : list (string * json)) :
  code_flag (JObj d) = true <-> dict_lookup d "version" = Some (JStr "").
Proof.
  cbn. unfold dict_get.
  destruct (dict_lookup d "version") as [v|]; cbn; [|split; discriminate].
  destruct v; cbn; try (split; discriminate).
  rewrite String.eqb_eq. split; [now intros -> | now intros [= ->]].
Qed.

Lemma flag_readings_agree (v : json) :
  unique_keys v = true -> code_flag v = has_empty_version v.
Proof.
  destruct v as [| | | | | | d]; try reflexivity.
  rewrite unique_keys_JObj. intro H.
  apply andb_true_iff in H as [Hd _].
  apply eq_true_iff_eq. rewrite code_flag_lookup. cbn [has_empty_version].
  rewrite has_empty_version_member. split.
  - apply lookup_member.
  - now apply member_lookup.
Qed.

Lemma unique_keys_nodes (v : json) :
  forall loc, unique_keys v = true ->
    Forall (fun n => unique_keys (snd n) = true) (nodes v loc).
Proof.
  induction v as [| b | z | f | s | l IH | d IH] using json_ind';
    intros loc H; try (constructor; [exact H | constructor]).
  - rewrite nodes_JArr. constructor; [exact H|].
    rewrite unique_keys_JArr in H. generalize 0 as idx.
    induction IH as [|v r Hv _ IHr]; intro idx; cbn [nodes_elems].
    + constructor.
    + cbn in H. apply andb_true_iff in H as [H1 H2].
      apply Forall_app. split; [now apply Hv | now apply IHr].
  - rewrite nodes_JObj. constructor; [exact H|].
    rewrite unique_keys_JObj in H. apply andb_true_iff in H as [_ H].
    unfold nodes_members.
    induction IH as [|[k v] r Hv _ IHr]; cbn [flat_map].
    + constructor.
    + cbn in H. apply andb_true_iff in H as [H1 H2].
      apply Forall_app. split; [now apply Hv | now apply IHr].
Qed.

Lemma trace_readings_agree (v : json) (root : string) (loc : location) :
  unique_keys v = true ->
  trace code_flag root (nodes v loc)
  = trace has_empty_version root (nodes v loc).
Proof.
  intro H. unfold trace. f_equal. apply filter_ext_in.
  intros n Hn. apply flag_readings_agree.
  exact (proj1 (Forall_forall _ _) (unique_keys_nodes v loc H) n Hn).
Qed.

Lemma trace_flagged_locations (doc : json) (root : string) :
  trace has_empty_version root (nodes doc [])
  = map (render root) (flagged_locations doc).
Proof. unfold trace, flagged_locations. now rewrite map_map. Qed.

(** ** The pre-pass *)

Lemma contains_key (d : list (string * json)) (key : string) :
  existsb (fun kv => String.eqb (fst kv) key) d
  = match dict_lookup d key with Some _ => true | None => false end.
Proof.
  induction d as [|[k v] r IH]; cbn; [reflexivity|].
  destruct (String.eqb k key); [reflexivity | exact IH].
Qed.

Lemma prepass_loop_objects (pk : list (string * json)) :
  forall g,
    forallb (fun kv => is_object (snd kv)) pk = true ->
    prepass_loop pk g
    = Ok (appended g
            (map packages_label (filter (fun kv => code_flag (snd kv)) pk))).
Proof.
  induction pk as [|[key pkg] r IH]; intros g H.
  - cbn. now rewrite appended_nil.
  - cbn in H. apply andb_true_iff in H as [Hobj Hr].
    destruct pkg as [| | | | | | d]; try discriminate.
    cbn [prepass_loop get bind filter snd code_flag].
    rewrite (IH _ Hr).
    destruct (str_eq (dict_get d "version" JNull) ""); [|reflexivity].
    cbn [map]. change (append ("packages[" ++ key ++ "]") g)
      with (appended g [packages_label (key, JObj d)]).
    now rewrite appended_app.
Qed.

Lemma prepass_loop_other_shape (pk : list (string * json)) :
  forall g,
    forallb (fun kv => is_object (snd kv)) pk = false ->
    prepass_loop pk g = Raise AttributeError.
Proof.
  induction pk as [|[key pkg] r IH]; intros g H; [discriminate|].
  cbn in H.
  destruct pkg as [| | | | | | d]; try reflexivity.
  cbn [prepass_loop get bind]. now apply IH.
Qed.

(** What lines 7-10 do on every document: they append [prepass_trace]
    exactly on the documents of [prepass_accepts], and raise [TypeError]
    or [AttributeError] on all others. *)
Lemma prepass_outcome (doc : json) (E : list string) :
  match prepass {| data := doc; EMPTY := E |} with
  | Ok g' =>
      prepass_accepts doc = true
      /\ g' = appended {| data := doc; EMPTY := E |} (prepass_trace doc)
  | Raise e =>
      prepass_accepts doc = false /\ (e = TypeError \/ e = AttributeError)
  end.
Proof.
  unfold prepass. cbn [data].
  destruct doc as [| b | z | f | s | l | d]; cbn [contains bind];
    try (split; [reflexivity | now left]).
  - cbn [prepass_accepts prepass_trace].
    destruct (str_contains "packages" s); cbn.
    + split; [reflexivity | now left].
    + split; [reflexivity | now rewrite appended_nil].
  - cbn [prepass_accepts prepass_trace].
    destruct (existsb (fun v => str_eq v "packages") l); cbn.
    + split; [reflexivity | now left].
    + split; [reflexivity | now rewrite appended_nil].
  - rewrite contains_key. cbn [prepass_accepts prepass_trace getitem].
    destruct (dict_lookup d "packages") as [pk|] eqn:Hpk.
    2:{ split; [reflexivity | now rewrite appended_nil]. }
    destruct pk as [| | | | | | pk]; cbn [bind items];
      try (split; [reflexivity | now right]).
    destruct (forallb (fun kv => is_object (snd kv)) pk) eqn:Hobj.
    + rewrite (prepass_loop_objects pk _ Hobj). now split.
    + rewrite (prepass_loop_other_shape pk _ Hobj). split; [reflexivity | now right].
Qed.

Lemma prepass_accepted (doc : json) (E : list string) :
  prepass_accepts doc = true ->
  prepass {| data := doc; EMPTY := E |}
  = Ok (appended {| data := doc; EMPTY := E |} (prepass_trace doc)).
Proof.
  intro H. pose proof (prepass_outcome doc E) as O.
  destruct (prepass {| data := doc; EMPTY := E |}) as [g'|e].
  - now destruct O as [_ ->].
  - destruct O as [O _]. congruence.
Qed.

Lemma prepass_rejected (doc : json) (E : list string) :
  prepass_accepts doc = false ->
  prepass {| data := doc; EMPTY := E |} = Raise TypeError
  \/ prepass {| data := doc; EMPTY := E |} = Raise AttributeError.
Proof.
  intro H. pose proof (prepass_outcome doc E) as O.
  destruct (prepass {| data := doc; EMPTY := E |}) as [g'|e].
  - destruct O as [O _]. congruence.
  - destruct O as [_ [-> | ->]]; [now left | now right].
Qed.

(** The whole run on an accepted document. *)
Lemma script_accepted (doc : json) :
  prepass_accepts doc = true ->
  script doc
  = Ok (reporter
          (appended {| data := doc; EMPTY := [] |}
             (prepass_trace doc ++ trace code_flag "root" (nodes doc [])))
          "").
Proof.
  intro H. unfold script. rewrite (prepass_accepted doc [] H).
  cbn [bind]. change (data (appended _ _)) with doc.
  change "root" with (render "root" []) at 1.
  now rewrite walk_trace, appended_app.
Qed.

(** ** Strings and lines *)

Lemma string_app_nil_r (s : string) : s ++ "" = s.
Proof. induction s as [|c s IH]; cbn; [reflexivity | now rewrite IH]. Qed.

Lemma string_app_assoc (s t u : string) : (s ++ t) ++ u = s ++ t ++ u.
Proof. induction s as [|c s IH]; cbn; [reflexivity | now rewrite IH]. Qed.

Lemma one_line_app (s t : string) :
  one_line (s ++ t) = one_line s && one_line t.
Proof.
  induction s as [|c s IH]; cbn; [reflexivity|].
  now rewrite IH, andb_assoc.
Qed.

Lemma one_line_digits (d : uint) :
  one_line (NilEmpty.string_of_uint d) = true.
Proof. induction d; cbn; auto. Qed.

Lemma one_line_total (E : list string) : one_line (total_line E) = true.
Proof.
  unfold total_line, str_of_nat. rewrite one_line_app, one_line_digits.
  reflexivity.
Qed.

Lemma splitlines_line (s rest : string) :
  one_line s = true -> splitlines (s ++ LF ++ rest) = s :: splitlines rest.
Proof.
  induction s as [|c s IH]; intro H.
  - reflexivity.
  - cbn in H. apply andb_true_iff in H as [Hc Hs].
    apply negb_true_iff in Hc.
    cbn [String.append splitlines]. rewrite Hc.
    change (s ++ String (ascii_of_nat 10) rest) with (s ++ LF ++ rest).
    now rewrite (IH Hs).
Qed.

Lemma splitlines_report (E : list string) (last : string) :
  forallb one_line E = true ->
  one_line last = true ->
  splitlines (fold_right (fun p rest => p ++ LF ++ rest) (last ++ LF) E)
  = (E ++ [last])%list.
Proof.
  intros HE Hlast. induction E as [|p r IH]; cbn [fold_right app].
  - rewrite <- (string_app_nil_r LF) at 1.
    now rewrite (splitlines_line last "" Hlast).
  - cbn in HE. apply andb_true_iff in HE as [Hp Hr].
    rewrite (splitlines_line p _ Hp). now rewrite (IH Hr).
Qed.

(** ** The reporter *)

Lemma print_loop (ps : list string) :
  forall out t,
    fold_left (fun o item => print item o) ps out ++ t
    = out ++ fold_right (fun p rest => p ++ LF ++ rest) t ps.
Proof.
  induction ps as [|p r IH]; intros out t; cbn [fold_left fold_right].
  - reflexivity.
  - rewrite IH. unfold print. now rewrite !string_app_assoc.
Qed.

Lemma reporter_text (g : globals) :
  reporter g "" = report_text (EMPTY g).
Proof.
  unfold reporter, report_text, print, total_line.
  rewrite print_loop. reflexivity.
Qed.

(** ** Depth and the call stack *)

Lemma depth_JObj (d : list (string * json)) :
  depth (JObj d) = S (max_depth (map snd d)).
Proof.
  cbn [depth]. f_equal.
  induction d as [|kv r IH]; cbn; [reflexivity | now rewrite IH].
Qed.

Lemma depth_JArr (l : list json) : depth (JArr l) = S (max_depth l).
Proof. reflexivity. Qed.

Lemma depth_pos (v : json) : 1 <= depth v.
Proof.
  destruct v; cbn; lia.
Qed.

Lemma max_depth_bound (vs : list json) (v : json) :
  In v vs -> depth v <= max_depth vs.
Proof.
  induction vs as [|w r IH]; [intros []|].
  change (max_depth (w :: r)) with (Nat.max (depth w) (max_depth r)).
  intros [-> | H]; [lia | specialize (IH H); lia].
Qed.

Lemma children_shallower (v : json) :
  Forall (fun c => depth c < depth v) (children v).
Proof.
  apply Forall_forall. intros c Hc.
  destruct v as [| | | | | l | d]; cbn in Hc; try tauto.
  - rewrite depth_JArr. pose proof (max_depth_bound l c Hc). lia.
  - rewrite depth_JObj. pose proof (max_depth_bound (map snd d) c Hc). lia.
Qed.

Lemma walk_stack_enough (obj : json) :
  forall (room : nat) (path : string) (g : globals),
    depth obj <= room -> walk_stack room obj path g = Some (walk obj path g).
Proof.
  induction obj as [| b | z | f | s | l IH | d IH] using json_ind';
    intros room path g Hroom;
    try (destruct room; [cbn in Hroom; lia | reflexivity]).
  - rewrite depth_JArr in Hroom. destruct room as [|room]; [lia|].
    apply le_S_n in Hroom. rewrite walk_JArr. cbn [walk_stack].
    generalize 0 as idx. revert g.
    induction IH as [|v r Hv _ IHr]; intros g idx; [reflexivity|].
    change (max_depth (v :: r)) with (Nat.max (depth v) (max_depth r))
      in Hroom.
    cbn [fold_left fst snd walk_elems].
    rewrite (Hv room) by lia. apply IHr. lia.
  - rewrite depth_JObj in Hroom. destruct room as [|room]; [lia|].
    apply le_S_n in Hroom. rewrite walk_JObj. cbn [walk_stack].
    unfold walk_members.
    generalize (if str_eq (dict_get d "version" JNull) ""
                then append path g else g) as g0.
    induction IH as [|[k v] r Hv _ IHr]; intro g0; [reflexivity|].
    change (max_depth (map snd ((k, v) :: r)))
      with (Nat.max (depth v) (max_depth (map snd r))) in Hroom.
    cbn [fold_left fst snd] in *.
    rewrite (Hv room) by lia. apply IHr. lia.
Qed.

Lemma members_stay_none (room : nat) (path : string)
  (its : list (string * json)) :
  fold_left
    (fun acc kv =>
       match acc with
       | Some g => walk_stack room (snd kv) (path ++ "." ++ fst kv) g
       | None => None
       end) its None
  = None.
Proof. induction its as [|kv r IH]; [reflexivity | exact IH]. Qed.

Lemma elems_stay_none (room : nat) (path : string) (vs : list json) :
  forall idx,
    fst (fold_left
           (fun acc v =>
              (match fst acc with
               | Some g =>
                   walk_stack room v
                     (path ++ "[" ++ str_of_nat (snd acc) ++ "]") g
               | None => None
               end, S (snd acc)))
           vs (None, idx))
    = None.
Proof.
  induction vs as [|v r IH]; intro idx; [reflexivity | apply IH].
Qed.

(** With less room than the depth of the document the walk runs out of
    stack. *)
Lemma walk_stack_short (obj : json) :
  forall (room : nat) (path : string) (g : globals),
    room < depth obj -> walk_stack room obj path g = None.
Proof.
  induction obj as [| b | z | f | s | l IH | d IH] using json_ind';
    intros room path g Hroom;
    try (destruct room; [reflexivity | cbn in Hroom; lia]).
  - rewrite depth_JArr in Hroom. destruct room as [|room]; [reflexivity|].
    apply PeanoNat.lt_S_n in Hroom. cbn [walk_stack].
    generalize 0 as idx. generalize (Some g) as acc.
    induction IH as [|v r Hv _ IHr]; intros acc idx.
    + cbn in Hroom. lia.
    + change (max_depth (v :: r)) with (Nat.max (depth v) (max_depth r))
        in Hroom.
      cbn [fold_left fst snd].
      destruct (Nat.lt_ge_cases room (depth v)) as [Hlt | Hge].
      * destruct acc as [g0|].
        -- rewrite (Hv room _ g0 Hlt). apply elems_stay_none.
        -- apply elems_stay_none.
      * apply IHr. lia.
  - rewrite depth_JObj in Hroom. destruct room as [|room]; [reflexivity|].
    apply PeanoNat.lt_S_n in Hroom. cbn [walk_stack].
    generalize (Some (if str_eq (dict_get d "version" JNull) ""
                      then append path g else g)) as acc.
    induction IH as [|[k v] r Hv _ IHr]; intro acc.
    + cbn in Hroom. lia.
    + change (max_depth (map snd ((k, v) :: r)))
        with (Nat.max (depth v) (max_depth (map snd r))) in Hroom.
      cbn [fold_left fst snd] in *.
      destruct (Nat.lt_ge_cases room (depth v)) as [Hlt | Hge].
      * destruct acc as [g0|].
        -- rewrite (Hv room _ g0 Hlt). apply members_stay_none.
        -- apply members_stay_none.
      * apply IHr. lia.
Qed.

(** ** Members of [packages] are nodes of the document *)

Lemma unique_keys_member (d : list (string * json)) (k : string) (v : json) :
  unique_keys (JObj d) = true -> In (k, v) d -> unique_keys v = true.
Proof.
  rewrite unique_keys_JObj. intros H Hin.
  apply andb_true_iff in H as [_ H].
  exact (proj1 (forallb_forall _ _) H (k, v) Hin).
Qed.

Lemma nodes_head (v : json) (loc : location) : In (loc, v) (nodes v loc).
Proof. destruct v; left; reflexivity. Qed.

Lemma nodes_member (d : list (string * json)) (k : string) (c : json)
  (loc : location) (n : location * json) :
  In (k, c) d -> In n (nodes c (loc ++ [Key k])) -> In n (nodes (JObj d) loc).
Proof.
  intros Hin Hn. rewrite nodes_JObj. right.
  unfold nodes_members. apply in_flat_map. now exists (k, c).
Qed.

Lemma filter_none {A : Type} (f : A -> bool) (l : list A) :
  (forall x, In x l -> f x = false) -> filter f l = [].
Proof.
  induction l as [|a r IH]; intro H; [reflexivity|].
  cbn. rewrite (H a (or_introl eq_refl)). apply IH.
  intros x Hx. apply H. now right.
Qed.

Lemma prepass_trace_records (d pk : list (string * json)) :
  unique_keys (JObj d) = true ->
  In ("packages", JObj pk) d ->
  prepass_trace (JObj d) = prepass_records pk
  /\ prepass_accepts (JObj d) = forallb (fun kv => is_object (snd kv)) pk.
Proof.
  intros Hu Hin.
  assert (Hl : dict_lookup d "packages" = Some (JObj pk)).
  { rewrite unique_keys_JObj in Hu. apply andb_true_iff in Hu as [Hd _].
    now apply member_lookup. }
  cbn [prepass_trace prepass_accepts]. rewrite Hl. split; [|reflexivity].
  unfold prepass_records. fold packages_label. f_equal.
  apply filter_ext_in. intros [k v] Hkv. cbn [snd].
  apply flag_readings_agree.
  apply (unique_keys_member pk k v); [|exact Hkv].
  now apply (unique_keys_member d "packages" (JObj pk)).
Qed.

Lemma no_flag_no_trace (doc : json) :
  unique_keys doc = true ->
  flagged_locations doc = [] ->
  trace code_flag "root" (nodes doc []) = [].
Proof.
  intros Hu Hf.
  now rewrite (trace_readings_agree doc "root" [] Hu),
    trace_flagged_locations, Hf.
Qed.

Lemma no_flag_no_record (doc : json) :
  unique_keys doc = true ->
  flagged_locations doc = [] ->
  prepass_trace doc = [].
Proof.
  intros Hu Hf. pose proof (no_flag_no_trace doc Hu Hf) as Ht.
  destruct doc as [| | | | | | d]; try reflexivity.
  cbn [prepass_trace].
  destruct (dict_lookup d "packages") as [[| | | | | | pk]|] eqn:Hl;
    try reflexivity.
  rewrite filter_none; [reflexivity|].
  intros [k v] Hkv. cbn [snd].
  destruct (code_flag v) eqn:Hv; [exfalso | reflexivity].
  assert (Hn : In ([Key "packages"; Key k], v) (nodes (JObj d) [])).
  { apply (nodes_member d "packages" (JObj pk)).
    - now apply lookup_member.
    - apply (nodes_member pk k v); [exact Hkv | apply nodes_head]. }
  assert (Hin : In (render "root" [Key "packages"; Key k])
                  (trace code_flag "root" (nodes (JObj d) []))).
  { unfold trace. apply in_map_iff.
    exists ([Key "packages"; Key k], v). split; [reflexivity|].
    apply filter_In. now split. }
  rewrite Ht in Hin. exact Hin.
Qed.

(** ** Prefixes, substrings and the locations below a node *)

Lemma prepass_error_root (doc : json) (E : list string) (e : exn) :
  prepass {| data := doc; EMPTY := E |} = Raise e ->
  e = if is_object doc then AttributeError else TypeError.
Proof.
  unfold prepass. cbn [data].
  destruct doc as [| b | z | f | s | l | d]; cbn [contains bind is_object];
    try (now intros [= <-]).
  - destruct (str_contains "packages" s); cbn; [now intros [= <-] | discriminate].
  - destruct (existsb (fun v => str_eq v "packages") l); cbn;
      [now intros [= <-] | discriminate].
  - rewrite contains_key. cbn [getitem].
    destruct (dict_lookup d "packages") as [pk|]; [|discriminate].
    destruct pk as [| | | | | | pk]; cbn [bind items];
      try (now intros [= <-]).
    destruct (forallb (fun kv => is_object (snd kv)) pk) eqn:Hobj.
    + now rewrite (prepass_loop_objects pk _ Hobj).
    + rewrite (prepass_loop_other_shape pk _ Hobj). now intros [= <-].
Qed.

Lemma main_raises (doc : json) (e : exn) :
  main (Parsed doc) = Raise e
  <-> prepass {| data := doc; EMPTY := [] |} = Raise e.
Proof.
  cbn [main]. unfold script.
  destruct (prepass {| data := doc; EMPTY := [] |}) as [g'|e']; cbn [bind].
  - split; discriminate.
  - split; now intros [= ->].
Qed.

Lemma prefix_iff (a : string) :
  forall b, String.prefix a b = true <-> exists t, b = a ++ t.
Proof.
  induction a as [|c a IH]; intros [|c' b]; cbn.
  - split; [now exists "" | reflexivity].
  - split; [now exists (String c' b) | reflexivity].
  - split; [discriminate | intros [t H]; discriminate].
  - destruct (ascii_dec c c') as [<- | Hc].
    + rewrite IH. split; intros [t H]; exists t.
      * now rewrite H.
      * now injection H.
    + split; [discriminate | intros [t [= Hcc _]]; congruence].
Qed.

Lemma str_contains_iff (needle s : string) :
  str_contains needle s = true <-> exists pre post, s = pre ++ needle ++ post.
Proof.
  induction s as [|c s IH]; cbn [str_contains]; rewrite orb_true_iff.
  - rewrite prefix_iff. split.
    + intros [[t H] | H]; [now exists "", t | discriminate].
    + intros [[|c pre] [post H]]; [left; now exists post | discriminate].
  - rewrite prefix_iff, IH. split.
    + intros [[t H] | [pre [post H]]].
      * now exists "", t.
      * exists (String c pre), post. cbn. now rewrite H.
    + intros [[|c' pre] [post H]].
      * left. now exists post.
      * right. exists pre, post. now injection H.
Qed.

Lemma render_prefix (loc : location) :
  forall root, String.prefix root (render root loc) = true.
Proof.
  induction loc as [|s r IH]; intro root; apply prefix_iff.
  - exists "". cbn. now rewrite string_app_nil_r.
  - destruct (proj1 (prefix_iff _ _) (IH (extend root s))) as [t Ht].
    change (render root (s :: r)) with (render (extend root s) r).
    rewrite Ht. destruct s as [k | i]; cbn [extend];
      eexists; now rewrite string_app_assoc.
Qed.

Lemma nodes_elems_in (loc0 : location) (l : list json) :
  forall idx n,
    In n (nodes_elems loc0 l idx)
    <-> exists i c,
        nth_error l i = Some c /\ In n (nodes c (loc0 ++ [Index (idx + i)])).
Proof.
  induction l as [|v r IH]; intros idx n; cbn [nodes_elems].
  - split; [intros [] | intros [[|i] [c [H _]]]; discriminate].
  - rewrite in_app_iff, IH. split.
    + intros [Hin | [i [c [Hnth Hin]]]].
      * exists 0, v. now rewrite Nat.add_0_r.
      * exists (S i), c. now rewrite Nat.add_succ_r.
    + intros [[|i] [c [Hnth Hin]]].
      * left. injection Hnth as <-. now rewrite Nat.add_0_r in Hin.
      * right. exists i, c. now rewrite Nat.add_succ_r in Hin.
Qed.

Lemma nodes_members_in (loc0 : location) (d : list (string * json))
  (n : location * json) :
  In n (nodes_members loc0 d)
  <-> exists k c, In (k, c) d /\ In n (nodes c (loc0 ++ [Key k])).
Proof.
  unfold nodes_members. rewrite in_flat_map. split.
  - intros [[k c] [Hin Hn]]. now exists k, c.
  - intros [k [c [Hin Hn]]]. now exists (k, c).
Qed.

Lemma nodes_below (v : json) :
  forall loc0 n, In n (nodes v loc0) -> exists loc, fst n = (loc0 ++ loc)%list.
Proof.
  induction v as [| b | z | f | s | l IH | d IH] using json_ind';
    intros loc0 n Hin;
    try (destruct Hin as [<- | []]; exists []; cbn; now rewrite app_nil_r).
  - rewrite nodes_JArr in Hin. destruct Hin as [<- | Hin].
    + exists []. cbn. now rewrite app_nil_r.
    + apply nodes_elems_in in Hin as [i [c [Hnth Hin]]].
      apply nth_error_In in Hnth.
      apply (proj1 (Forall_forall _ _) IH c Hnth) in Hin as [loc Hf].
      exists (Index i :: loc). now rewrite Hf, <- app_assoc.
  - rewrite nodes_JObj in Hin. destruct Hin as [<- | Hin].
    + exists []. cbn. now rewrite app_nil_r.
    + apply nodes_members_in in Hin as [k [c [Hkc Hin]]].
      apply (proj1 (Forall_forall _ _) IH (k, c) Hkc) in Hin as [loc Hf].
      exists (Key k :: loc). now rewrite Hf, <- app_assoc.
Qed.

(** ** The walk against the specification *)

Lemma walk_appends_flagged (doc : json) (path : string) (g : globals) :
  unique_keys doc = true ->
  walk doc path g = appended g (map (render path) (flagged_locations doc)).
Proof.
  intro Hu. change path with (render path []) at 1.
  rewrite walk_trace.
  now rewrite (trace_readings_agree doc path [] Hu), trace_flagged_locations.
Qed.

(** ** The records of one object node *)

Lemma string_length_app (a b : string) :
  String.length (a ++ b) = String.length a + String.length b.
Proof. induction a as [|c a IH]; cbn; [reflexivity | now rewrite IH]. Qed.

Lemma prefix_length (a b : string) :
  String.prefix a b = true -> String.length a <= String.length b.
Proof.
  intro H. apply prefix_iff in H as [t ->]. rewrite string_length_app. lia.
Qed.

(** What the walk of an object appends: its own path if the test of line
    14 holds, then what its members append. *)
Lemma walk_object_records (d : list (string * json)) (path : string)
  (g : globals) :
  EMPTY (walk (JObj d) path g)
  = (EMPTY g
       ++ (if code_flag (JObj d) then [path] else [])
       ++ trace code_flag path (nodes_members [] d))%list.
Proof.
  pose proof (walk_trace (JObj d) path [] g) as Hw.
  change (render path []) with path in Hw. rewrite Hw, nodes_JObj.
  cbn [appended EMPTY]. f_equal. unfold trace.
  cbn [filter snd fst]. destruct (code_flag (JObj d)); reflexivity.
Qed.

(** The members of a node are recorded under longer paths than the node. *)
Lemma member_records_longer (d : list (string * json)) (path p : string) :
  In p (trace code_flag path (nodes_members [] d)) ->
  String.length path < String.length p.
Proof.
  unfold trace. intro Hin. apply in_map_iff in Hin as [n [<- Hn]].
  apply filter_In in Hn as [Hn _].
  apply nodes_members_in in Hn as [k [c [_ Hn]]].
  apply nodes_below in Hn as [loc Hloc]. rewrite Hloc.
  change (render path (([] ++ [Key k]) ++ loc))
    with (render (path ++ "." ++ k) loc).
  pose proof (prefix_length _ _ (render_prefix loc (path ++ "." ++ k))) as H.
  rewrite !string_length_app in H. cbn [String.length] in H. lia.
Qed.

(** ** The run with the limits of the interpreter explicit *)

Lemma digits_encodable (d : uint) :
  has_surrogate (NilEmpty.string_of_uint d) = false.
Proof. induction d; cbn; auto. Qed.

Lemma total_encodable (n : nat) :
  encodable ("total" ++ " " ++ str_of_nat n) = true.
Proof.
  unfold encodable, str_of_nat. cbn. now rewrite digits_encodable.
Qed.

Lemma encodable_prefix_all (its : list string) :
  forallb encodable its = true -> encodable_prefix its = its.
Proof.
  induction its as [|p r IH]; cbn; [reflexivity|].
  intro H. apply andb_true_iff in H as [Hp Hr].
  now rewrite Hp, (IH Hr).
Qed.

Lemma report_loop_outcome (its : list string) :
  forall out,
    report_loop its out
    = {| stdout := out ++ entry_lines (encodable_prefix its);
         raised := if forallb encodable its
                   then None else Some UnicodeEncodeError |}.
Proof.
  induction its as [|p r IH]; intro out;
    cbn [report_loop encodable_prefix forallb].
  - unfold entry_lines. cbn [fold_right]. now rewrite string_app_nil_r.
  - destruct (encodable p); cbn [andb].
    + rewrite IH. unfold print, entry_lines. cbn [fold_right].
      now rewrite !string_app_assoc.
    + unfold entry_lines. cbn [fold_right]. now rewrite string_app_nil_r.
Qed.

Lemma entry_lines_then (its : list string) (t : string) :
  entry_lines its ++ t = fold_right (fun p rest => p ++ LF ++ rest) t its.
Proof.
  unfold entry_lines. induction its as [|p r IH]; cbn [fold_right].
  - reflexivity.
  - now rewrite !string_app_assoc, IH.
Qed.

(** What lines 23-25 do on every collection: all entries and the total
    line when every entry can be encoded, the entries before the first
    one that cannot and [UnicodeEncodeError] otherwise. *)
Lemma reporter_run_outcome (g : globals) :
  reporter_run g ""
  = if forallb encodable (EMPTY g)
    then {| stdout := report_text (EMPTY g); raised := None |}
    else {| stdout := entry_lines (encodable_prefix (EMPTY g));
            raised := Some UnicodeEncodeError |}.
Proof.
  unfold reporter_run. rewrite report_loop_outcome.
  destruct (forallb encodable (EMPTY g)) eqn:H; cbn [raised stdout].
  - rewrite total_encodable, (encodable_prefix_all _ H).
    unfold print, report_text, total_line. cbn [String.append].
    now rewrite entry_lines_then.
  - reflexivity.
Qed.

Lemma script_run_accepted (stack_holds : json -> bool) (doc : json) :
  prepass_accepts doc = true ->
  script_run stack_holds doc
  = if stack_holds doc
    then reporter_run
           (appended {| data := doc; EMPTY := [] |} (collected doc)) ""
    else {| stdout := ""; raised := Some RecursionError |}.
Proof.
  intro Ha. unfold script_run. rewrite (prepass_accepted doc [] Ha).
  change (data (appended _ _)) with doc.
  destruct (stack_holds doc); [|reflexivity].
  pose proof (walk_trace doc "root" []) as Hw.
  change (render "root" []) with "root" in Hw.
  now rewrite Hw, appended_app.
Qed.

(** When the stack holds and every record can be encoded, the run is the
    one of [main]. *)
Lemma run_as_main (stack_holds : json -> bool) (doc : json) :
  (prepass_accepts doc = true ->
   stack_holds doc = true /\ forallb encodable (collected doc) = true) ->
  run stack_holds (Parsed doc)
  = match main (Parsed doc) with
    | Ok out => {| stdout := out; raised := None |}
    | Raise e => {| stdout := ""; raised := Some e |}
    end.
Proof.
  intro H. cbn [run main].
  destruct (prepass_accepts doc) eqn:Ha.
  - destruct (H eq_refl) as [Hs He].
    rewrite (script_run_accepted _ doc Ha), Hs, reporter_run_outcome.
    cbn [appended EMPTY]. rewrite app_nil_l, He.
    rewrite (script_accepted doc Ha), reporter_text. reflexivity.
  - unfold script_run, script.
    pose proof (prepass_outcome doc []) as O.
    destruct (prepass {| data := doc; EMPTY := [] |}) as [g'|e];
      [destruct O; congruence | reflexivity].
Qed.

(** ** The scenarios of the specification *)

Example scenario1 :
  main (Parsed (JObj [("version", JStr "")]))
  = Ok ("root" ++ LF ++ "total 1" ++ LF).
Proof. reflexivity. Qed.

Example scenario2 :
  main (Parsed (JObj [("name", JStr "x"); ("version", JStr "1.0.0")]))
  = Ok ("total 0" ++ LF).
Proof. reflexivity. Qed.

Example scenario4 :
  main (Parsed (JObj [("a", JArr [JObj [("version", JStr "")];
                                  JObj [("version", JStr "2.0.0")]])]))
  = Ok ("root.a[0]" ++ LF ++ "total 1" ++ LF).
Proof. reflexivity. Qed.

Example nested_detection :
  main (Parsed nested)
  = Ok ("root.a[0]" ++ LF ++ "root.a[0].b[1]" ++ LF ++ "total 2" ++ LF).
Proof. reflexivity. Qed.

Example root_string_without_packages :
  main (Parsed (JStr "lockfile")) = Ok ("total 0" ++ LF).
Proof. reflexivity. Qed.

Example root_string_with_packages :
  main (Parsed (JStr "my packages")) = Raise TypeError.
Proof. reflexivity. Qed.

Example root_list_with_packages :
  main (Parsed (JArr [JStr "packages"])) = Raise TypeError.
Proof. reflexivity. Qed.

Example eleventh_element :
  EMPTY (walk (JArr (repeat JNull 10 ++ [empty_version])) "root"
           {| data := JNull; EMPTY := [] |})
  = ["root[10]"].
Proof. reflexivity. Qed.

(** * The claims *)

(** C1. On every document the recursive walk appends to the flagged-path
    collection exactly the paths of the object nodes whose [version] member
    is the empty string, at any depth, in pre-order: a node before its
    members, members in key order under [path.key], list elements in index
    order from 0 under [path[index]].  [flagged_locations] lists those
    nodes in that order and [render] writes a location below the starting
    path, which the script sets to ["root"]. *)
Theorem walk_flags_exactly (doc : json) (path : string) (g : globals) :
  unique_keys doc = true ->
  EMPTY (walk doc path g)
  = (EMPTY g ++ map (render path) (flagged_locations doc))%list.
Proof.
  intro Hu.
  pose proof (walk_trace doc path [] g) as Hw.
  change (render path []) with path in Hw.
  rewrite Hw. cbn [appended EMPTY]. f_equal.
  rewrite (trace_readings_agree doc path [] Hu).
  apply trace_flagged_locations.
Qed.

Lemma walk_flags_exactly_witness :
  unique_keys nested = true
  /\ EMPTY (walk nested "root" {| data := nested; EMPTY := [] |})
     = ["root.a[0]"; "root.a[0].b[1]"].
Proof.
  split; [reflexivity|].
  exact (walk_flags_exactly nested "root" {| data := nested; EMPTY := [] |}
           eq_refl).
Defined.

(** C2, amended.  On every document that the pre-pass accepts and that
    holds no object with an empty [version], standard output is exactly the
    line [total 0]. *)
Theorem no_flag_total_zero (doc : json) :
  unique_keys doc = true ->
  prepass_accepts doc = true ->
  flagged_locations doc = [] ->
  main (Parsed doc) = Ok ("total 0" ++ LF).
Proof.
  intros Hu Ha Hf. cbn [main].
  rewrite (script_accepted doc Ha), (no_flag_no_record doc Hu Hf),
    (no_flag_no_trace doc Hu Hf).
  reflexivity.
Qed.

Lemma no_flag_total_zero_witness :
  main (Parsed (JObj [("name", JStr "x"); ("version", JStr "1.0.0")]))
  = Ok ("total 0" ++ LF).
Proof.
  exact (no_flag_total_zero
           (JObj [("name", JStr "x"); ("version", JStr "1.0.0")])
           eq_refl eq_refl eq_refl).
Defined.

(** C2 as stated fails: the document [{"packages": []}] is valid JSON and
    holds no object with an empty [version], yet the run raises
    [AttributeError] and prints nothing. *)
Lemma no_flag_total_zero_counterexample :
  unique_keys (JObj [("packages", JArr [])]) = true
  /\ flagged_locations (JObj [("packages", JArr [])]) = []
  /\ main (Parsed (JObj [("packages", JArr [])])) = Raise AttributeError
  /\ main (Parsed (JObj [("packages", JArr [])])) <> Ok ("total 0" ++ LF).
Proof. repeat split; try reflexivity. discriminate. Qed.



(** C4. On [{"packages": {"node_modules/foo": {"version": ""}}}] the
    pre-pass records [packages[node_modules/foo]], the walk records
    [root.packages.node_modules/foo], and the output is these two lines
    followed by [total 2]. *)
Theorem scenario3_output :
  prepass {| data := scenario3; EMPTY := [] |}
  = Ok {| data := scenario3; EMPTY := ["packages[node_modules/foo]"] |}
  /\ EMPTY (walk scenario3 "root" {| data := scenario3; EMPTY := [] |})
     = ["root.packages.node_modules/foo"]
  /\ main (Parsed scenario3)
     = Ok ("packages[node_modules/foo]" ++ LF
           ++ "root.packages.node_modules/foo" ++ LF
           ++ "total 2" ++ LF)
  /\ match main (Parsed scenario3) with
     | Ok out =>
         splitlines out
         = ["packages[node_modules/foo]"; "root.packages.node_modules/foo";
            "total 2"]
     | Raise _ => False
     end.
Proof. repeat split; reflexivity. Qed.

(** C5, amended.  When the root object has a member [packages] that is an
    object, the pre-pass goes through its direct members in order: if all
    of them are objects it records [packages[<key>]] exactly for those with
    an empty [version], and raises [AttributeError] if one of them has
    another shape.  All records of the pre-pass come before all records of
    the walk. *)
Theorem prepass_records_members (d pk : list (string * json))
  (E : list string) :
  unique_keys (JObj d) = true ->
  In ("packages", JObj pk) d ->
  let g := {| data := JObj d; EMPTY := E |} in
  prepass g
  = (if forallb (fun kv => is_object (snd kv)) pk
     then Ok (appended g (prepass_records pk))
     else Raise AttributeError)
  /\ EMPTY (walk (JObj d) "root" (appended g (prepass_records pk)))
     = (E ++ prepass_records pk
          ++ map (render "root") (flagged_locations (JObj d)))%list.
Proof.
  intros Hu Hin g.
  destruct (prepass_trace_records d pk Hu Hin) as [Ht Ha].
  split.
  - destruct (forallb (fun kv => is_object (snd kv)) pk) eqn:Hobj.
    + unfold g. rewrite (prepass_accepted (JObj d) E Ha). now rewrite Ht.
    + assert (Hl : dict_lookup d "packages" = Some (JObj pk)).
      { rewrite unique_keys_JObj in Hu. apply andb_true_iff in Hu as [Hd _].
        now apply member_lookup. }
      unfold g, prepass. cbn [data contains bind].
      rewrite contains_key. cbn [getitem]. rewrite Hl. cbn [bind items].
      now apply prepass_loop_other_shape.
  - rewrite (walk_appends_flagged (JObj d) "root" _ Hu).
    cbn [appended EMPTY]. now rewrite app_assoc.
Qed.

Lemma prepass_records_members_witness :
  let g := {| data := scenario3; EMPTY := [] |} in
  prepass g
  = Ok (appended g ["packages[node_modules/foo]"])
  /\ EMPTY (walk scenario3 "root" (appended g ["packages[node_modules/foo]"]))
     = ["packages[node_modules/foo]"; "root.packages.node_modules/foo"].
Proof.
  exact (prepass_records_members
           [("packages", JObj [("node_modules/foo", empty_version)])]
           [("node_modules/foo", empty_version)] []
           eq_refl (or_introl eq_refl)).
Defined.

(** C5 as stated fails: in [{"packages": {"a": 1}}] the member [a] is no
    object; the pre-pass does not pass over it recording nothing, it raises
    [AttributeError], and the run prints nothing. *)
Lemma prepass_records_members_counterexample :
  prepass_records [("a", JInt 1)] = []
  /\ prepass {| data := JObj [("packages", JObj [("a", JInt 1)])];
               EMPTY := [] |}
     = Raise AttributeError
  /\ prepass {| data := JObj [("packages", JObj [("a", JInt 1)])];
               EMPTY := [] |}
     <> Ok (appended {| data := JObj [("packages", JObj [("a", JInt 1)])];
                        EMPTY := [] |}
              (prepass_records [("a", JInt 1)]))
  /\ main (Parsed (JObj [("packages", JObj [("a", JInt 1)])]))
     = Raise AttributeError.
Proof. repeat split; try reflexivity. discriminate. Qed.

(** C6. An object node is flagged if and only if its [version] member is
    exactly the empty string: the walk started on the node with a fresh
    collection records the path of the node exactly then, and the pre-pass
    records [packages[<key>]] for a member exactly then.  A [version] of
    any other value (a single space, [null], a value that is no string)
    and a missing [version] record nothing for the node, and what was
    recorded before stays.  The value is compared as it is. *)
Theorem version_flag_exact (d : list (string * json)) (path key : string)
  (g : globals) :
  distinct (map fst d) = true ->
  let fresh := {| data := data g; EMPTY := [] |} in
  (In path (EMPTY (walk (JObj d) path fresh)) <-> In ("version", JStr "") d)
  /\ (exists below,
        EMPTY (walk (JObj d) path g)
        = (EMPTY g
             ++ (if has_empty_version (JObj d) then [path] else [])
             ++ below)%list
        /\ ~ In path below)
  /\ (exists g',
        prepass_loop [(key, JObj d)] fresh = Ok g'
        /\ EMPTY g'
           = (if has_empty_version (JObj d)
              then ["packages[" ++ key ++ "]"] else [])
        /\ (In ("packages[" ++ key ++ "]") (EMPTY g')
            <-> In ("version", JStr "") d))
  /\ (forall v, In ("version", v) d -> v <> JStr "" ->
        ~ In path (EMPTY (walk (JObj d) path fresh)))
  /\ (~ In "version" (map fst d) ->
        ~ In path (EMPTY (walk (JObj d) path fresh))).
Proof.
  intros Hd fresh.
  assert (Hflag : code_flag (JObj d) = has_empty_version (JObj d)).
  { apply eq_true_iff_eq. rewrite code_flag_lookup. cbn [has_empty_version].
    rewrite has_empty_version_member.
    split; [apply lookup_member | now apply member_lookup]. }
  assert (Hm : has_empty_version (JObj d) = true
               <-> In ("version", JStr "") d).
  { exact (has_empty_version_member d). }
  assert (Hbelow : ~ In path (trace code_flag path (nodes_members [] d))).
  { intro Hin. apply member_records_longer in Hin. lia. }
  assert (Hiff : In path (EMPTY (walk (JObj d) path fresh))
                 <-> In ("version", JStr "") d).
  { rewrite walk_object_records, Hflag. cbn [EMPTY fresh app].
    destruct (has_empty_version (JObj d)); cbn [app In].
    - split; [intros _; now apply Hm | now left].
    - split; [intro H; now apply Hbelow in H |].
      intro H. apply Hm in H. discriminate. }
  split; [exact Hiff|]. split; [|split; [|split]].
  - exists (trace code_flag path (nodes_members [] d)).
    split; [|exact Hbelow]. now rewrite walk_object_records, Hflag.
  - cbn [prepass_loop get bind]. fold (code_flag (JObj d)). rewrite Hflag.
    destruct (has_empty_version (JObj d)); eexists;
      (split; [reflexivity|]); (split; [reflexivity|]); cbn.
    + split; [intros _; now apply Hm | now left].
    + split; [intros [] |]. intro H. apply Hm in H. discriminate.
  - intros v Hin Hv. rewrite Hiff. intro Hempty.
    pose proof (member_lookup d "version" v Hd Hin) as H1.
    pose proof (member_lookup d "version" (JStr "") Hd Hempty) as H2.
    congruence.
  - intros Hno. rewrite Hiff. intro Hempty. apply Hno.
    apply in_map_iff. now exists ("version", JStr "").
Qed.

Lemma version_flag_exact_witness :
  In "root"
    (EMPTY (walk (JObj [("name", JStr "x"); ("version", JStr "")]) "root"
              {| data := JNull; EMPTY := [] |}))
  /\ ~ In "root"
       (EMPTY (walk (JObj [("name", JStr "x"); ("version", JStr " ")])
                 "root" {| data := JNull; EMPTY := [] |}))
  /\ ~ In "root"
       (EMPTY (walk (JObj [("version", JNull);
                           ("deps", JObj [("version", JStr "")])])
                 "root" {| data := JNull; EMPTY := [] |})).
Proof.
  split; [|split].
  - apply (proj1 (version_flag_exact
                    [("name", JStr "x"); ("version", JStr "")]
                    "root" "k" {| data := JNull; EMPTY := [] |} eq_refl)).
    right. now left.
  - refine (proj1 (proj2 (proj2 (proj2
              (version_flag_exact
                 [("name", JStr "x"); ("version", JStr " ")]
                 "root" "k" {| data := JNull; EMPTY := [] |} eq_refl))))
              (JStr " ") (or_intror (or_introl eq_refl)) _).
    discriminate.
  - refine (proj1 (proj2 (proj2 (proj2
              (version_flag_exact
                 [("version", JNull); ("deps", JObj [("version", JStr "")])]
                 "root" "k" {| data := JNull; EMPTY := [] |} eq_refl))))
              JNull (or_introl eq_refl) _).
    discriminate.
Defined.

(** C7, amended.  The reporter prints the entries of the collection in
    order, each followed by a line feed, up to the first entry that
    standard output cannot encode, where the run ends with
    [UnicodeEncodeError]; when every entry can be encoded it then prints
    [total] and the length of the collection.  When moreover no entry
    holds a line feed, these are the lines of the output: the entries, one
    per line, then the total line, so that the count printed is the number
    of lines before it. *)
Theorem reporter_lines (g : globals) :
  reporter_run g ""
  = (if forallb encodable (EMPTY g)
     then {| stdout := report_text (EMPTY g); raised := None |}
     else {| stdout := entry_lines (encodable_prefix (EMPTY g));
             raised := Some UnicodeEncodeError |})
  /\ (forallb encodable (EMPTY g) = true ->
      forallb one_line (EMPTY g) = true ->
      splitlines (stdout (reporter_run g ""))
      = (EMPTY g ++ [total_line (EMPTY g)])%list
      /\ length (removelast (splitlines (stdout (reporter_run g ""))))
         = length (EMPTY g)).
Proof.
  split; [apply reporter_run_outcome|].
  intros He Hl. rewrite reporter_run_outcome, He. cbn [stdout].
  assert (H : splitlines (report_text (EMPTY g))
              = (EMPTY g ++ [total_line (EMPTY g)])%list).
  { unfold report_text.
    apply splitlines_report; [exact Hl | apply one_line_total]. }
  split; [exact H|]. now rewrite H, removelast_last.
Qed.

Lemma reporter_lines_witness :
  let g := {| data := JNull; EMPTY := ["root"; "root.a[0]"] |} in
  splitlines (stdout (reporter_run g "")) = ["root"; "root.a[0]"; "total 2"]
  /\ length (removelast (splitlines (stdout (reporter_run g "")))) = 2.
Proof.
  exact (proj2 (reporter_lines
                  {| data := JNull; EMPTY := ["root"; "root.a[0]"] |})
           eq_refl eq_refl).
Defined.

(** C7 as stated fails: a key may hold a line feed.  The document
    [{"a\nb": {"version": ""}}] flags the one path [root.a\nb]; the
    reporter prints it over two lines and then [total 1], so two lines
    come before a total of one. *)
Lemma reporter_lines_counterexample :
  EMPTY (walk two_line_doc "root" {| data := two_line_doc; EMPTY := [] |})
  = ["root." ++ two_line_key]
  /\ main (Parsed two_line_doc)
     = Ok ("root.a" ++ LF ++ "b" ++ LF ++ "total 1" ++ LF)
  /\ run (counts_walk_only 1000) (Parsed two_line_doc)
     = {| stdout := "root.a" ++ LF ++ "b" ++ LF ++ "total 1" ++ LF;
          raised := None |}
  /\ splitlines ("root.a" ++ LF ++ "b" ++ LF ++ "total 1" ++ LF)
     = ["root.a"; "b"; "total 1"]
  /\ length (removelast
               (splitlines ("root.a" ++ LF ++ "b" ++ LF ++ "total 1" ++ LF)))
     = 2.
Proof. repeat split; reflexivity. Qed.

(** C8. The walk reads the document and writes the collection only: the
    document is the same after the walk, what the walk appends does not
    depend on what the collection held before, and a second walk of the
    document left by the first one, started from an empty collection like
    the first, ends in the same collection and the same output. *)
Theorem walk_twice_same (obj : json) (path : string) (g : globals) :
  let fresh := {| data := data g; EMPTY := [] |} in
  let first := walk (data g) path fresh in
  let second := walk (data first) path {| data := data first; EMPTY := [] |} in
  data (walk obj path g) = data g
  /\ EMPTY (walk obj path g)
     = (EMPTY g ++ EMPTY (walk obj path fresh))%list
  /\ data first = data g
  /\ second = first
  /\ reporter second "" = reporter first "".
Proof.
  intros fresh first second.
  assert (Hw : forall o h,
             walk o path h = appended h (trace code_flag path (nodes o []))).
  { intros o h. change path with (render path []) at 1. apply walk_trace. }
  assert (Hfirst : data first = data g).
  { unfold first. now rewrite Hw. }
  assert (Hsecond : second = first).
  { unfold second. rewrite Hfirst. reflexivity. }
  repeat split.
  - now rewrite Hw.
  - unfold fresh. now rewrite !Hw.
  - exact Hfirst.
  - exact Hsecond.
  - now rewrite Hsecond.
Qed.

(** C9. The walk ends on every document.  Its recursive calls are on the
    children of the node at hand, each of smaller depth, so a call stack
    with room for [depth obj] nested calls, or more, carries the walk to
    its result. *)
Theorem walk_terminates (obj : json) (path : string) (g : globals)
  (spare : nat) :
  walk_stack (depth obj + spare) obj path g = Some (walk obj path g)
  /\ Forall (fun c => depth c < depth obj) (children obj).
Proof.
  split.
  - apply walk_stack_enough. lia.
  - apply children_shallower.
Qed.

(** C10. Paths do not tell locations apart.  In
    [{"a.b": {"version": ""}, "a": {"b": {"version": ""}}}] the member
    [a.b] of the root and the member [b] of the member [a] are two flagged
    nodes, and both are reported as [root.a.b]: keys are written into the
    path as they are. *)
Theorem path_encoding_not_injective :
  exists (doc : json) (l1 l2 : location),
    unique_keys doc = true
    /\ l1 <> l2
    /\ In l1 (flagged_locations doc)
    /\ In l2 (flagged_locations doc)
    /\ render "root" l1 = render "root" l2
    /\ EMPTY (walk doc "root" {| data := doc; EMPTY := [] |})
       = ["root.a.b"; "root.a.b"]
    /\ main (Parsed doc)
       = Ok ("root.a.b" ++ LF ++ "root.a.b" ++ LF ++ "total 2" ++ LF).
Proof.
  exists collision, [Key "a.b"], [Key "a"; Key "b"].
  repeat split; try reflexivity.
  - discriminate.
  - now left.
  - right. now left.
Qed.

(** * Further properties of the script *)

(** ** Which exception, on which shape *)

(** X1. A parsed document ends the run with [TypeError] exactly when the
    pre-pass rejects it and its root is no object, and with
    [AttributeError] exactly when the pre-pass rejects it and its root is
    an object. *)
Theorem error_kind_by_root (doc : json) :
  (main (Parsed doc) = Raise TypeError
   <-> is_object doc = false /\ prepass_accepts doc = false)
  /\ (main (Parsed doc) = Raise AttributeError
      <-> is_object doc = true /\ prepass_accepts doc = false).
Proof.
  pose proof (prepass_outcome doc []) as O.
  pose proof (prepass_error_root doc []) as R.
  rewrite !main_raises.
  destruct (prepass {| data := doc; EMPTY := [] |}) as [g'|e].
  - destruct O as [Ha _].
    split; (split; [discriminate | intros [_ H]; congruence]).
  - destruct O as [Ha _]. specialize (R e eq_refl).
    destruct (is_object doc); subst e; split; split;
      try discriminate; try (intros [H _]; discriminate); intuition.
Qed.

(** ** The whole output of an accepted document *)

Lemma prepass_trace_members (doc : json) :
  unique_keys doc = true ->
  prepass_trace doc = prepass_records (packages_members doc).
Proof.
  intro Hu. destruct doc as [| | | | | | d]; try reflexivity.
  cbn [prepass_trace packages_members].
  destruct (dict_lookup d "packages") as [[| | | | | | pk]|] eqn:Hl;
    try reflexivity.
  pose proof (prepass_trace_records d pk Hu (lookup_member _ _ _ Hl)) as [H _].
  cbn [prepass_trace] in H. now rewrite Hl in H.
Qed.

(** X2. On a document that the pre-pass accepts, that the recursion limit
    lets the walk go through and all of whose records standard output can
    encode, the run ends normally and standard output is the records of
    the pre-pass for the members of [packages], then the paths of the
    flagged nodes in pre-order, each on a line, then [total] and the
    number of both together. *)
Theorem output_of_accepted (stack_holds : json -> bool) (doc : json) :
  unique_keys doc = true ->
  prepass_accepts doc = true ->
  stack_holds doc = true ->
  forallb encodable
    (prepass_records (packages_members doc)
       ++ map (render "root") (flagged_locations doc)) = true ->
  run stack_holds (Parsed doc)
  = {| stdout := report_text
                   (prepass_records (packages_members doc)
                      ++ map (render "root") (flagged_locations doc));
       raised := None |}.
Proof.
  intros Hu Ha Hs He. cbn [run].
  assert (Hc : collected doc
               = (prepass_records (packages_members doc)
                    ++ map (render "root") (flagged_locations doc))%list).
  { unfold collected.
    now rewrite (prepass_trace_members doc Hu),
      (trace_readings_agree doc "root" [] Hu), trace_flagged_locations. }
  rewrite (script_run_accepted stack_holds doc Ha), Hs, reporter_run_outcome.
  cbn [appended EMPTY]. rewrite app_nil_l, Hc, He. reflexivity.
Qed.

Lemma output_of_accepted_witness :
  run (counts_walk_only 1000) (Parsed two_packages)
  = {| stdout := report_text
                   ["packages[a]"; "packages[c]";
                    "root.packages.a"; "root.packages.c"];
       raised := None |}.
Proof.
  exact (output_of_accepted (counts_walk_only 1000) two_packages
           eq_refl eq_refl eq_refl eq_refl).
Defined.

(** ** The nesting of the walk *)

(** X3. On a document of nesting depth [depth obj] the calls of [walk] nest
    exactly that deep: allowed that many nested calls of itself or more,
    the walk returns its result; allowed fewer, it does not.  Only the
    calls of [walk] are counted here. *)
Theorem walk_stack_exact (room : nat) (obj : json) (path : string)
  (g : globals) :
  walk_stack room obj path g
  = if (depth obj <=? room)%nat then Some (walk obj path g) else None.
Proof.
  destruct (depth obj <=? room)%nat eqn:H.
  - apply Nat.leb_le in H. now apply walk_stack_enough.
  - apply Nat.leb_gt in H. now apply walk_stack_short.
Qed.

(** ** Which pass wrote a record *)

(** X4. Every path the walk records begins with the path the walk was
    started with, and every record of the pre-pass begins with
    [packages[]: no record of the pre-pass is a record of the walk from
    [root]. *)
Theorem records_tell_their_pass (doc : json) (path : string) :
  Forall (fun p => String.prefix path p = true)
    (EMPTY (walk doc path {| data := doc; EMPTY := [] |}))
  /\ match prepass {| data := doc; EMPTY := [] |} with
     | Ok g' =>
         Forall
           (fun p =>
              String.prefix "packages[" p = true
              /\ ~ In p (EMPTY (walk doc "root"
                                  {| data := doc; EMPTY := [] |})))
           (EMPTY g')
     | Raise _ => True
     end.
Proof.
  assert (Hwalk : forall root,
             Forall (fun p => String.prefix root p = true)
               (EMPTY (walk doc root {| data := doc; EMPTY := [] |}))).
  { intro root. change root with (render root []) at 2.
    rewrite walk_trace. cbn [appended EMPTY app].
    apply Forall_forall. intros p Hp. unfold trace in Hp.
    apply in_map_iff in Hp as [n [<- _]]. apply render_prefix. }
  split; [apply Hwalk|].
  pose proof (prepass_outcome doc []) as O.
  destruct (prepass {| data := doc; EMPTY := [] |}) as [g'|e]; [|exact I].
  destruct O as [_ ->]. cbn [appended EMPTY app].
  apply Forall_forall. intros p Hp.
  assert (Hlabel : exists k, p = "packages[" ++ k ++ "]").
  { destruct doc as [| | | | | | d]; try contradiction.
    cbn [prepass_trace] in Hp.
    destruct (dict_lookup d "packages") as [[| | | | | | pk]|];
      try contradiction.
    apply in_map_iff in Hp as [kv [<- _]]. now exists (fst kv). }
  destruct Hlabel as [k ->].
  split; [apply prefix_iff; now exists (k ++ "]")|].
  intro Hin.
  pose proof (proj1 (Forall_forall _ _) (Hwalk "root") _ Hin) as Hroot.
  cbn in Hroot. discriminate Hroot.
Qed.

(** X5. A root that is a string ends the run with [TypeError] exactly when
    [packages] occurs in it as a substring, and a root that is a list
    exactly when the string [packages] is one of its elements; a string
    root without that substring prints [total 0]. *)
Theorem packages_in_root (s : string) (l : list json) :
  (main (Parsed (JStr s)) = Raise TypeError
   <-> exists pre post, s = pre ++ "packages" ++ post)
  /\ (main (Parsed (JStr s)) = Ok ("total 0" ++ LF)
      <-> ~ exists pre post, s = pre ++ "packages" ++ post)
  /\ (main (Parsed (JArr l)) = Raise TypeError
      <-> In (JStr "packages") l).
Proof.
  rewrite <- (str_contains_iff "packages" s).
  cbn [main]. unfold script, prepass. cbn [data contains bind].
  repeat split.
  - destruct (str_contains "packages" s); [reflexivity | discriminate].
  - intros ->. reflexivity.
  - destruct (str_contains "packages" s); [discriminate | intros _ H; discriminate].
  - intro H. destruct (str_contains "packages" s); [now destruct H | reflexivity].
  - destruct (existsb (fun v => str_eq v "packages") l) eqn:Hex;
      cbn [bind getitem]; [intros _ | discriminate].
    apply existsb_exists in Hex as [v [Hin Hv]].
    destruct v; try discriminate. cbn in Hv.
    apply String.eqb_eq in Hv as ->. exact Hin.
  - intro Hin.
    assert (Hex : existsb (fun v => str_eq v "packages") l = true).
    { apply existsb_exists. now exists (JStr "packages"). }
    now rewrite Hex.
Qed.

(** ** The records of the pre-pass are distinct *)

Lemma distinct_NoDup (ks : list string) : distinct ks = true -> NoDup ks.
Proof.
  induction ks as [|k r IH]; cbn; intro H; [constructor|].
  apply andb_true_iff in H as [Hk Hr]. apply negb_true_iff in Hk.
  constructor; [|now apply IH].
  intro Hin.
  assert (Hex : existsb (String.eqb k) r = true).
  { apply existsb_exists. exists k. split; [exact Hin | apply String.eqb_refl]. }
  congruence.
Qed.

Lemma kept_images_distinct {X Y : Type} (image : X -> Y)
  (keep : X -> bool) :
  forall xs, NoDup (map image xs) -> NoDup (map image (filter keep xs)).
Proof.
  intro xs. induction xs as [|x r IH]; cbn; intro H; [constructor|].
  apply NoDup_cons_iff in H as [Hx Hr].
  destruct (keep x); [|now apply IH].
  cbn. constructor; [|now apply IH].
  intro Hin. apply Hx. apply in_map_iff in Hin as [y [Hy Hin]].
  apply filter_In in Hin as [Hin _]. apply in_map_iff. now exists y.
Qed.

Lemma bracket_inj (k1 : string) :
  forall k2, k1 ++ "]" = k2 ++ "]" -> k1 = k2.
Proof.
  induction k1 as [|c k1 IH]; intros [|c' k2]; cbn; intro H.
  - reflexivity.
  - injection H as _ H. destruct k2; discriminate.
  - injection H as _ H. destruct k1; discriminate.
  - injection H as -> H. f_equal. now apply IH.
Qed.

Lemma packages_label_inj (kv1 kv2 : string * json) :
  packages_label kv1 = packages_label kv2 -> fst kv1 = fst kv2.
Proof.
  unfold packages_label. intro H. cbn [String.append] in H.
  injection H as H. now apply bracket_inj.
Qed.

Lemma NoDup_labels (l : list (string * json)) :
  NoDup (map fst l) -> NoDup (map packages_label l).
Proof.
  induction l as [|a r IH]; cbn; intro H; [constructor|].
  apply NoDup_cons_iff in H as [Ha Hr].
  constructor; [|now apply IH].
  intro Hin. apply Ha. apply in_map_iff in Hin as [b [Hb Hin]].
  apply packages_label_inj in Hb. rewrite <- Hb. now apply in_map.
Qed.

(** X6. The pre-pass never records the same path twice: the keys of the
    [packages] object are distinct and [packages[<key>]] keeps them
    apart. *)
Theorem prepass_records_distinct (doc : json) :
  unique_keys doc = true ->
  match prepass {| data := doc; EMPTY := [] |} with
  | Ok g' => NoDup (EMPTY g')
  | Raise _ => True
  end.
Proof.
  intro Hu. pose proof (prepass_outcome doc []) as O.
  destruct (prepass {| data := doc; EMPTY := [] |}) as [g'|e]; [|exact I].
  destruct O as [_ ->]. cbn [appended EMPTY app].
  destruct doc as [| | | | | | d]; try constructor.
  cbn [prepass_trace].
  destruct (dict_lookup d "packages") as [[| | | | | | pk]|] eqn:Hl;
    try constructor.
  apply NoDup_labels, kept_images_distinct, distinct_NoDup.
  pose proof (unique_keys_member d "packages" (JObj pk) Hu
                (lookup_member _ _ _ Hl)) as Hpk.
  rewrite unique_keys_JObj in Hpk. now apply andb_true_iff in Hpk as [Hpk _].
Qed.

Lemma prepass_records_distinct_witness :
  NoDup ["packages[a]"; "packages[c]"].
Proof. exact (prepass_records_distinct two_packages eq_refl). Defined.

(** ** Every record of the pre-pass is recorded again by the walk *)

Lemma nodes_cons (c : json) (loc : location) :
  exists rest, nodes c loc = (loc, c) :: rest.
Proof. destruct c; eexists; reflexivity. Qed.

Lemma flagged_members_le (pk : list (string * json)) (loc : location) :
  length (filter (fun kv => code_flag (snd kv)) pk)
  <= length (filter (fun n => code_flag (snd n)) (nodes_members loc pk)).
Proof.
  unfold nodes_members.
  induction pk as [|[k c] r IH]; [apply Nat.le_refl|].
  cbn [flat_map filter fst snd]. rewrite filter_app, length_app.
  destruct (nodes_cons c (loc ++ [Key k])) as [rest ->].
  cbn [filter snd]. destruct (code_flag c); cbn [length]; lia.
Qed.

Lemma flagged_member_nodes_le (d : list (string * json)) (k : string)
  (c : json) (loc : location) :
  In (k, c) d ->
  length (filter (fun n => code_flag (snd n)) (nodes c (loc ++ [Key k])))
  <= length (filter (fun n => code_flag (snd n)) (nodes_members loc d)).
Proof.
  unfold nodes_members.
  induction d as [|kv r IH]; [intros []|].
  cbn [flat_map]. rewrite filter_app, length_app.
  intros [-> | Hin]; cbn [fst snd]; [lia | specialize (IH Hin); lia].
Qed.

Lemma filter_tail_le {A : Type} (f : A -> bool) (a : A) (l : list A) :
  length (filter f l) <= length (filter f (a :: l)).
Proof. cbn. destruct (f a); cbn; lia. Qed.

Lemma prepass_trace_le_walk (doc : json) :
  length (prepass_trace doc)
  <= length (trace code_flag "root" (nodes doc [])).
Proof.
  destruct doc as [| | | | | | d]; try apply Nat.le_0_l.
  cbn [prepass_trace].
  destruct (dict_lookup d "packages") as [[| | | | | | pk]|] eqn:Hl;
    try apply Nat.le_0_l.
  unfold trace. rewrite !length_map, nodes_JObj.
  pose proof (flagged_members_le pk [Key "packages"]) as H1.
  pose proof (filter_tail_le (fun n => code_flag (snd n))
                ([Key "packages"], JObj pk)
                (nodes_members [Key "packages"] pk)) as H2.
  rewrite <- nodes_JObj in H2.
  pose proof (flagged_member_nodes_le d "packages" (JObj pk) []
                (lookup_member _ _ _ Hl)) as H3.
  pose proof (filter_tail_le (fun n => code_flag (snd n))
                ([], JObj d) (nodes_members [] d)) as H4.
  exact (Nat.le_trans _ _ _ H1
           (Nat.le_trans _ _ _ H2 (Nat.le_trans _ _ _ H3 H4))).
Qed.

(** X7. Whatever the pre-pass records under [packages[<key>]], the walk
    records again under [root.packages.<key>]: after both passes the
    collection holds at least twice as many entries as the pre-pass
    wrote. *)
Theorem prepass_records_walked_again (doc : json) (g' : globals)
  (k : string) :
  prepass {| data := doc; EMPTY := [] |} = Ok g' ->
  In ("packages[" ++ k ++ "]") (EMPTY g') ->
  In ("root.packages." ++ k) (EMPTY (walk doc "root" g'))
  /\ 2 * length (EMPTY g') <= length (EMPTY (walk doc "root" g')).
Proof.
  intros Hp Hin.
  pose proof (prepass_outcome doc []) as O. rewrite Hp in O.
  destruct O as [_ ->]. cbn [appended EMPTY app] in *.
  pose proof (walk_trace doc "root" []) as Hw.
  change (render "root" []) with "root" in Hw.
  rewrite Hw. cbn [appended EMPTY app].
  split.
  - apply in_or_app. right.
    destruct doc as [| | | | | | d]; try contradiction.
    cbn [prepass_trace] in Hin.
    destruct (dict_lookup d "packages") as [[| | | | | | pk]|] eqn:Hl;
      try contradiction.
    apply in_map_iff in Hin as [[k' v] [Hk Hin]].
    apply (packages_label_inj (k', v) (k, v)) in Hk. cbn in Hk. subst k'.
    apply filter_In in Hin as [Hin Hv]. cbn [snd] in Hv.
    unfold trace. apply in_map_iff.
    exists ([Key "packages"; Key k], v). split; [reflexivity|].
    apply filter_In. split; [|exact Hv].
    apply (nodes_member d "packages" (JObj pk));
      [now apply lookup_member|].
    apply (nodes_member pk k v); [exact Hin | apply nodes_head].
  - rewrite !length_app. cbn [List.length]. pose proof (prepass_trace_le_walk doc). lia.
Qed.

Lemma prepass_records_walked_again_witness :
  In "root.packages.node_modules/foo"
    (EMPTY (walk scenario3 "root"
              {| data := scenario3;
                 EMPTY := ["packages[node_modules/foo]"] |}))
  /\ 2 * length ["packages[node_modules/foo]"]
     <= length (EMPTY (walk scenario3 "root"
                         {| data := scenario3;
                            EMPTY := ["packages[node_modules/foo]"] |})).
Proof.
  exact (prepass_records_walked_again scenario3
           {| data := scenario3; EMPTY := ["packages[node_modules/foo]"] |}
           "node_modules/foo" eq_refl (or_introl eq_refl)).
Defined.

(** ** Lines of the output when paths hold line feeds *)

Lemma splitlines_line_nonempty (p : string) : splitlines (p ++ LF) <> [].
Proof.
  induction p as [|c p IH]; cbn [String.append splitlines].
  - discriminate.
  - destruct (is_LF c); [discriminate|].
    change (p ++ String (ascii_of_nat 10) "") with (p ++ LF).
    destruct (splitlines (p ++ LF)); [contradiction | discriminate].
Qed.

Lemma splitlines_app_line (p rest : string) :
  splitlines (p ++ LF ++ rest)
  = (splitlines (p ++ LF) ++ splitlines rest)%list.
Proof.
  induction p as [|c p IH]; [reflexivity|].
  cbn [String.append splitlines].
  change (p ++ String (ascii_of_nat 10) rest) with (p ++ LF ++ rest).
  change (p ++ String (ascii_of_nat 10) "") with (p ++ LF).
  rewrite IH. destruct (is_LF c); [reflexivity|].
  pose proof (splitlines_line_nonempty p) as Hne.
  destruct (splitlines (p ++ LF)); [contradiction | reflexivity].
Qed.

Lemma length_splitlines_line (p : string) :
  length (splitlines (p ++ LF)) = S (count_LF p).
Proof.
  induction p as [|c p IH]; [reflexivity|].
  cbn [String.append splitlines count_LF].
  change (p ++ String (ascii_of_nat 10) "") with (p ++ LF).
  destruct (is_LF c).
  - cbn [List.length]. now rewrite IH.
  - pose proof (splitlines_line_nonempty p) as Hne.
    destruct (splitlines (p ++ LF)) eqn:E; [contradiction|].
    cbn [List.length] in *. exact IH.
Qed.

Lemma splitlines_fold (E : list string) (last : string) :
  one_line last = true ->
  splitlines (fold_right (fun p rest => p ++ LF ++ rest) (last ++ LF) E)
  = (flat_map (fun p => splitlines (p ++ LF)) E ++ [last])%list.
Proof.
  intro Hlast. induction E as [|p r IH]; cbn [fold_right flat_map app].
  - rewrite <- (string_app_nil_r LF) at 1.
    now rewrite (splitlines_line last "" Hlast).
  - now rewrite splitlines_app_line, IH, app_assoc.
Qed.

Lemma length_flat_map_lines (E : list string) :
  length (flat_map (fun p => splitlines (p ++ LF)) E)
  = length E + list_sum (map count_LF E).
Proof.
  induction E as [|p r IH]; [reflexivity|].
  change (list_sum (map count_LF (p :: r)))
    with (count_LF p + list_sum (map count_LF r)).
  cbn [flat_map List.length].
  rewrite length_app, length_splitlines_line, IH. lia.
Qed.

(** X8. On every collection whose entries standard output can encode,
    the reporter ends normally, the output ends with the line
    [total <n>], and the number of lines before it is the number of
    entries plus the number of line feeds inside the entries: the count
    printed is never more than the lines before it. *)
Theorem lines_before_total (g : globals) :
  forallb encodable (EMPTY g) = true ->
  raised (reporter_run g "") = None
  /\ splitlines (stdout (reporter_run g ""))
     = (flat_map (fun p => splitlines (p ++ LF)) (EMPTY g)
          ++ [total_line (EMPTY g)])%list
  /\ length (removelast (splitlines (stdout (reporter_run g ""))))
     = length (EMPTY g) + list_sum (map count_LF (EMPTY g)).
Proof.
  intro He. rewrite reporter_run_outcome, He. cbn [raised stdout].
  assert (H : splitlines (report_text (EMPTY g))
              = (flat_map (fun p => splitlines (p ++ LF)) (EMPTY g)
                   ++ [total_line (EMPTY g)])%list).
  { unfold report_text. apply splitlines_fold, one_line_total. }
  split; [reflexivity|]. split; [exact H|].
  now rewrite H, removelast_last, length_flat_map_lines.
Qed.

Lemma lines_before_total_witness :
  let g := {| data := two_line_doc;
              EMPTY := ["root"; "root." ++ two_line_key] |} in
  raised (reporter_run g "") = None
  /\ splitlines (stdout (reporter_run g ""))
     = ["root"; "root.a"; "b"; "total 2"]
  /\ length (removelast (splitlines (stdout (reporter_run g "")))) = 2 + 1.
Proof.
  exact (lines_before_total
           {| data := two_line_doc;
              EMPTY := ["root"; "root." ++ two_line_key] |} eq_refl).
Defined.

(** ** Locations lead to their nodes *)

Lemma here_is_root (loc0 : location) (v : json) (n : location * json) :
  fst n = (loc0 ++ [])%list -> Some v = Some (snd n) -> (loc0, v) = n.
Proof.
  destruct n as [l x]. cbn. rewrite app_nil_r. now intros -> [= ->].
Qed.

Lemma nodes_resolve (doc : json) :
  forall loc0 n,
    unique_keys doc = true ->
    (In n (nodes doc loc0)
     <-> exists loc, fst n = (loc0 ++ loc)%list
                     /\ resolve doc loc = Some (snd n)).
Proof.
  induction doc as [| b | z | f | s | l IH | d IH] using json_ind';
    intros loc0 n Hu;
    try (split;
         [ intros [<- | []]; exists []; cbn; now rewrite app_nil_r
         | intros [[|[k|i] loc] [Hf Hr]]; cbn in Hr; try discriminate;
           left; now apply here_is_root ]).
  - rewrite nodes_JArr. cbn [In]. rewrite nodes_elems_in.
    rewrite unique_keys_JArr in Hu.
    assert (Hc : forall i c, nth_error l i = Some c ->
                 forall loc0 n,
                   In n (nodes c loc0)
                   <-> exists loc, fst n = (loc0 ++ loc)%list
                                   /\ resolve c loc = Some (snd n)).
    { intros i c Hnth. apply nth_error_In in Hnth.
      intros l0 m. apply (proj1 (Forall_forall _ _) IH c Hnth).
      exact (proj1 (forallb_forall _ _) Hu c Hnth). }
    split.
    + intros [<- | [i [c [Hnth Hin]]]].
      * exists []. cbn. now rewrite app_nil_r.
      * apply (Hc i c Hnth) in Hin as [loc [Hf Hr]].
        exists (Index i :: loc). split.
        -- now rewrite Hf, <- app_assoc.
        -- cbn [resolve]. now rewrite Hnth.
    + intros [[|[k|i] loc] [Hf Hr]]; cbn [resolve] in Hr;
        try discriminate.
      * left. now apply here_is_root.
      * destruct (nth_error l i) as [c|] eqn:Hnth; [|discriminate].
        right. exists i, c. split; [exact Hnth|].
        apply (Hc i c Hnth). exists loc. split; [|exact Hr].
        now rewrite Hf, <- app_assoc.
  - rewrite nodes_JObj. cbn [In]. rewrite nodes_members_in.
    rewrite unique_keys_JObj in Hu. apply andb_true_iff in Hu as [Hd Hu].
    assert (Hc : forall k c, In (k, c) d ->
                 forall loc0 n,
                   In n (nodes c loc0)
                   <-> exists loc, fst n = (loc0 ++ loc)%list
                                   /\ resolve c loc = Some (snd n)).
    { intros k c Hin l0 m.
      apply (proj1 (Forall_forall _ _) IH (k, c) Hin).
      exact (proj1 (forallb_forall _ _) Hu (k, c) Hin). }
    split.
    + intros [<- | [k [c [Hin Hn]]]].
      * exists []. cbn. now rewrite app_nil_r.
      * apply (Hc k c Hin) in Hn as [loc [Hf Hr]].
        exists (Key k :: loc). split.
        -- now rewrite Hf, <- app_assoc.
        -- cbn [resolve]. now rewrite (member_lookup d k c Hd Hin).
    + intros [[|[k|i] loc] [Hf Hr]]; cbn [resolve] in Hr;
        try discriminate.
      * left. now apply here_is_root.
      * destruct (dict_lookup d k) as [c|] eqn:Hl; [|discriminate].
        apply lookup_member in Hl.
        right. exists k, c. split; [exact Hl|].
        apply (Hc k c Hl). exists loc. split; [|exact Hr].
        now rewrite Hf, <- app_assoc.
Qed.

(** X9. A path is recorded by the walk exactly when it is the rendering of
    a location that leads from the root, key by key and index by index, to
    an object with a member [version] equal to the empty string. *)
Theorem recorded_iff_reachable (doc : json) (p : string) :
  unique_keys doc = true ->
  (In p (EMPTY (walk doc "root" {| data := doc; EMPTY := [] |}))
   <-> exists loc d,
       render "root" loc = p
       /\ resolve doc loc = Some (JObj d)
       /\ In ("version", JStr "") d).
Proof.
  intro Hu. rewrite (walk_appends_flagged doc "root" _ Hu).
  cbn [appended EMPTY]. rewrite app_nil_l, in_map_iff.
  unfold flagged_locations. split.
  - intros [loc [<- Hin]].
    apply in_map_iff in Hin as [[l v] [Hl Hin]]. cbn in Hl. subst l.
    apply filter_In in Hin as [Hin Hv]. cbn [snd] in Hv.
    apply (nodes_resolve doc [] _ Hu) in Hin as [loc' [Hf Hr]].
    cbn in Hf, Hr. subst loc'.
    destruct v as [| | | | | | d]; try discriminate.
    exists loc, d. repeat split; [exact Hr|].
    now apply has_empty_version_member.
  - intros [loc [d [<- [Hr Hin]]]]. exists loc. split; [reflexivity|].
    apply in_map_iff. exists (loc, JObj d). split; [reflexivity|].
    apply filter_In. split.
    + apply (nodes_resolve doc [] _ Hu). now exists loc.
    + now apply has_empty_version_member.
Qed.

Lemma recorded_iff_reachable_witness :
  In "root.a[0].b[1]"
    (EMPTY (walk nested "root" {| data := nested; EMPTY := [] |})).
Proof.
  apply (proj2 (recorded_iff_reachable nested "root.a[0].b[1]" eq_refl)).
  exists [Key "a"; Index 0; Key "b"; Index 1], [("version", JStr "")].
  repeat split. now left.
Defined.

(** ** Each node is visited once *)

Lemma same_first_step (loc0 l1 l2 : location) (s s' : step) :
  ((loc0 ++ [s]) ++ l1 = (loc0 ++ [s']) ++ l2)%list -> s = s'.
Proof.
  rewrite <- !app_assoc. intro H. apply app_inv_head in H. now injection H.
Qed.

Lemma child_not_parent (v : json) (loc0 : location) (s : step)
  (n : location * json) :
  In n (nodes v (loc0 ++ [s])) -> fst n <> loc0.
Proof.
  intros Hin Heq. apply nodes_below in Hin as [loc Hf].
  rewrite Heq, <- app_assoc in Hf.
  rewrite <- (app_nil_r loc0) in Hf at 1.
  apply app_inv_head in Hf. discriminate.
Qed.

Lemma nodes_NoDup (v : json) :
  forall loc0, unique_keys v = true -> NoDup (map fst (nodes v loc0)).
Proof.
  induction v as [| b | z | f | s | l IH | d IH] using json_ind';
    intros loc0 Hu;
    try (cbn; constructor; [intros [] | constructor]).
  - rewrite nodes_JArr. cbn [map fst]. constructor.
    + intro Hin. apply in_map_iff in Hin as [n [Hf Hin]].
      apply nodes_elems_in in Hin as [i [c [_ Hin]]].
      exact (child_not_parent c loc0 _ n Hin Hf).
    + rewrite unique_keys_JArr in Hu. generalize 0 as idx.
      induction IH as [|v r Hv _ IHr]; intro idx; [constructor|].
      cbn in Hu. apply andb_true_iff in Hu as [Hu1 Hu2].
      cbn [nodes_elems]. rewrite map_app. apply NoDup_app.
      * now apply Hv.
      * now apply IHr.
      * intros a Ha Hb.
        apply in_map_iff in Ha as [n [<- Hn]].
        apply in_map_iff in Hb as [m [Hm Hin]].
        apply nodes_below in Hn as [l1 Hl1].
        apply nodes_elems_in in Hin as [i [c [_ Hin]]].
        apply nodes_below in Hin as [l2 Hl2].
        rewrite Hl1, Hl2 in Hm. apply same_first_step in Hm.
        injection Hm as Hm. lia.
  - rewrite nodes_JObj. cbn [map fst]. constructor.
    + intro Hin. apply in_map_iff in Hin as [n [Hf Hin]].
      apply nodes_members_in in Hin as [k [c [_ Hin]]].
      exact (child_not_parent c loc0 _ n Hin Hf).
    + rewrite unique_keys_JObj in Hu. apply andb_true_iff in Hu as [Hd Hu].
      unfold nodes_members.
      induction IH as [|[k v] r Hv _ IHr]; [constructor|].
      cbn in Hd, Hu.
      apply andb_true_iff in Hd as [Hk Hd]. apply negb_true_iff in Hk.
      apply andb_true_iff in Hu as [Hu1 Hu2].
      cbn [flat_map fst snd] in *. rewrite map_app. apply NoDup_app.
      * now apply Hv.
      * now apply IHr.
      * intros a Ha Hb.
        apply in_map_iff in Ha as [n [<- Hn]].
        apply in_map_iff in Hb as [m [Hm Hin]].
        apply nodes_below in Hn as [l1 Hl1].
        apply (nodes_members_in loc0 r m) in Hin as [k' [c [Hkc Hin]]].
        apply nodes_below in Hin as [l2 Hl2].
        rewrite Hl1, Hl2 in Hm. apply same_first_step in Hm.
        injection Hm as ->.
        exact (absent_key_no_member k r Hk c Hkc).
Qed.

(** X10. The walk records each flagged node once: the locations behind
    its records are pairwise distinct, and there are as many records as
    flagged nodes, even where two of them are written as the same path. *)
Theorem each_flagged_node_once (doc : json) (path : string) :
  unique_keys doc = true ->
  NoDup (flagged_locations doc)
  /\ length (EMPTY (walk doc path {| data := doc; EMPTY := [] |}))
     = length (flagged_locations doc).
Proof.
  intro Hu. split.
  - unfold flagged_locations. apply kept_images_distinct.
    now apply nodes_NoDup.
  - rewrite (walk_appends_flagged doc path _ Hu).
    cbn [appended EMPTY]. now rewrite app_nil_l, length_map.
Qed.

Lemma each_flagged_node_once_witness :
  NoDup [[Key "a.b"]; [Key "a"; Key "b"]]
  /\ length (EMPTY (walk collision "root"
                      {| data := collision; EMPTY := [] |}))
     = 2.
Proof. exact (each_flagged_node_once collision "root" eq_refl). Defined.
